(** * web-util-kit: 2D affine transforms and pairwise circle separation

    A shallow embedding of [src/geom/Matrix2X3.ts] and of the [collide]
    routine, with the properties stated for them.

    JavaScript's [number] is read in two ways.

    - As a real number ([R]): the exact arithmetic in which the algebraic
      laws of the matrix code and the geometry of the separation step are
      stated.  A theorem over [R] whose conclusion depends on the value of
      a quotient carries the hypothesis that the divisor is not zero, so
      the value Rocq gives to [x / 0] is never relied upon.
    - As an IEEE 754 binary64 value (Rocq's primitive [float]): the
      arithmetic the code really runs, with its infinities and NaN.  It is
      used where a statement is about a division by zero.

    The [collide] routine only needs [+ - * / sqrt < >]; it is written once,
    over an interface [Number], and instantiated at both. *)

From Stdlib Require Import Floats.
From Stdlib Require Import Bool Arith ZArith Reals Lra Psatz.
From Stdlib Require Import List.

(** ** The arithmetic interface of [collide] *)

Class Number (N : Type) : Type := {
  num_add : N -> N -> N;
  num_sub : N -> N -> N;
  num_mul : N -> N -> N;
  num_div : N -> N -> N;
  num_sqrt : N -> N;            (* Math.sqrt *)
  num_lt : N -> N -> bool;      (* a < b *)
  num_gt : N -> N -> bool;      (* a > b *)
  num_16 : N;                   (* the literal 16 *)
  num_half : N                  (* the literal .5 *)
}.

Declare Scope num_scope.
Delimit Scope num_scope with num.
Infix "+" := num_add : num_scope.
Infix "-" := num_sub : num_scope.
Infix "*" := num_mul : num_scope.
Infix "/" := num_div : num_scope.
Infix "<?" := num_lt (at level 70, no associativity) : num_scope.
Infix ">?" := num_gt (at level 70, no associativity) : num_scope.

(** Real numbers: comparisons decided by the order of [R]. *)
Definition Rltb (a b : R) : bool := if Rlt_dec a b then true else false.
Definition Rgtb (a b : R) : bool := if Rgt_dec a b then true else false.

#[global] Instance RNumber : Number R := {|
  num_add := Rplus; num_sub := Rminus; num_mul := Rmult; num_div := Rdiv;
  num_sqrt := R_sqrt.sqrt; num_lt := Rltb; num_gt := Rgtb;
  num_16 := 16%R; num_half := (5 / 10)%R
|}.

(** binary64: the operations of ECMAScript numbers. [a > b] is [b < a]. *)
#[global] Instance FloatNumber : Number float := {|
  num_add := PrimFloat.add; num_sub := PrimFloat.sub;
  num_mul := PrimFloat.mul; num_div := PrimFloat.div;
  num_sqrt := PrimFloat.sqrt;
  num_lt := PrimFloat.ltb; num_gt := fun a b => PrimFloat.ltb b a;
  num_16 := 16%float; num_half := 0.5%float
|}.

(** ** collide *)

Module Collide.

Section WithNumber.
Context {N : Type} {num : Number N}.
Local Open Scope num_scope.

(** [interface CircleNode { x; y; radius }] *)
Record CircleNode : Type := mkNode { x : N; y : N; radius : N }.

(** Nodes are JavaScript objects: they are shared and mutated in place,
    and compared by identity ([!==]).  An object is named by a reference
    and the heap gives each reference its current fields. *)
Definition Ref : Type := nat.
Definition Heap : Type := Ref -> CircleNode.

(** [interface Quad { point }]; the code tests [quad.point] for
    truthiness, so a quad may hold no point. *)
Record Quad : Type := mkQuad { point : option Ref }.

(** [o.x = v] and [o.y = v] *)
Definition set_x (h : Heap) (o : Ref) (v : N) : Heap :=
  fun p => if Nat.eqb p o then mkNode v (y (h o)) (radius (h o)) else h p.
Definition set_y (h : Heap) (o : Ref) (v : N) : Heap :=
  fun p => if Nat.eqb p o then mkNode (x (h o)) v (radius (h o)) else h p.

(** The function value returned by [collide]: the code of the inner
    function with the variables it closes over.  [nx1 .. ny2] are
    numbers, copied when [collide] runs; [node] is the object itself. *)
Record Closure : Type := mkClosure {
  node : Ref; nx1 : N; nx2 : N; ny1 : N; ny2 : N
}.

Definition collide (node : Ref) (h : Heap) : Closure :=
  let r := radius (h node) + num_16 in
  {| node := node;
     nx1 := x (h node) - r;
     nx2 := x (h node) + r;
     ny1 := y (h node) - r;
     ny2 := y (h node) + r |}.

(** The separation step, lines 24-34: [q] is [quad.point]. *)
Definition separate (node q : Ref) (h : Heap) : Heap :=
  let dx := x (h node) - x (h q) in
  let dy := y (h node) - y (h q) in
  let l := num_sqrt (dx * dx + dy * dy) in
  let r := radius (h node) + radius (h q) in
  if l <? r then
    let l' := (l - r) / l * num_half in
    let dx' := dx * l' in                         (* x *= l *)
    let h1 := set_x h node (x (h node) - dx') in  (* node.x -= x *)
    let dy' := dy * l' in                         (* y *= l *)
    let h2 := set_y h1 node (y (h1 node) - dy') in
    let h3 := set_x h2 q (x (h2 q) + dx') in      (* quad.point.x += x *)
    set_y h3 q (y (h3 q) + dy')                   (* quad.point.y += y *)
  else h.

(** Calling the closure: the heap after the call and the returned
    boolean. *)
Definition invoke (c : Closure) (quad : Quad) (x1 y1 x2 y2 : N) (h : Heap)
  : bool * Heap :=
  let h' :=
    match point quad with
    | Some q => if negb (Nat.eqb q (node c)) then separate (node c) q h
                else h
    | None => h
    end in
  ((x1 >? nx2 c) || (x2 <? nx1 c) || (y1 >? ny2 c) || (y2 <? ny1 c), h').

End WithNumber.

Arguments CircleNode N : clear implicits.
Arguments Heap N : clear implicits.
Arguments Closure N : clear implicits.

End Collide.

(** *** Notions used to state the properties of [collide] *)

Module CollideGeometry.
Import Collide.
Local Open Scope R_scope.

(** The query rectangle [[x1, x2] x [y1, y2]], as a set of points. *)
Definition in_rectangle (x1 y1 x2 y2 : R) (px py : R) : Prop :=
  x1 <= px <= x2 /\ y1 <= py <= y2.

(** The padded bounding square of a node: [r = radius + 16] around its
    centre. *)
Definition in_padded_square (n : CircleNode R) (px py : R) : Prop :=
  let r := radius n + 16 in
  x n - r <= px <= x n + r /\ y n - r <= py <= y n + r.

(** The rectangle lies entirely outside the padded square: no point of the
    rectangle is in the square. *)
Definition outside (n : CircleNode R) (x1 y1 x2 y2 : R) : Prop :=
  forall px py,
    in_rectangle x1 y1 x2 y2 px py -> ~ in_padded_square n px py.

(** Distance between the centres of two nodes. *)
Definition distance (a b : CircleNode R) : R :=
  sqrt ((x a - x b) * (x a - x b) + (y a - y b) * (y a - y b)).

(** The spec's pair of circles: [(0, 0)] and [(15, 0)], both of radius
    [10]; object [0] is the first and every other object the second. *)
Definition overlappingPair : Heap R :=
  fun p => match p with
           | O => mkNode 0 0 10
           | S _ => mkNode 15 0 10
           end.

(** Circles of radius [4] at [(0, 0)] and [(3, 4)]: their centres are [5]
    apart. *)
Definition diagonalPair : Heap R :=
  fun p => match p with
           | O => mkNode 0 0 4
           | S _ => mkNode 3 4 4
           end.

(** A point at the origin and, far from it, a circle of radius [5] at
    [(30, 0)]. *)
Definition farPair : Heap R :=
  fun p => match p with
           | O => mkNode 0 0 0
           | S _ => mkNode 30 0 5
           end.

(** A node at the origin with radius [0]. *)
Definition originPoint : Heap R := fun _ => mkNode 0 0 0.

End CollideGeometry.

Module CollideFloat.
Import Collide.
Local Open Scope float_scope.

(** The same pair of circles in binary64. *)
Definition overlappingPair : Heap float :=
  fun p => match p with
           | O => mkNode 0 0 10
           | S _ => mkNode 15 0 10
           end.

(** Distinct circles of radius [10] with the same centre [(0, 0)]. *)
Definition stackedAtOrigin : Heap float := fun _ => mkNode 0 0 10.

(** Distinct circles with the same centre [(3, 4)], of radius [1] and
    [2]. *)
Definition stackedPair : Heap float :=
  fun p => match p with
           | O => mkNode 3 4 1
           | S _ => mkNode 3 4 2
           end.

End CollideFloat.

(** ** Matrix2X3 *)

Module Matrix2X3.

Local Open Scope R_scope.

(** [type Matrix2X3Array = [m11, m12, m21, m22, dx, dy]]: the six entries
    [a[0] .. a[5]], in this order. *)
Inductive Matrix2X3Array : Type :=
  Mat (a0 a1 a2 a3 a4 a5 : R).

Record TRANSFORM_OPTION : Type := mkOption {
  angle : R;
  scaleX : R;
  scaleY : R;
  skewX : R;
  skewY : R;
  translateX : R;
  translateY : R;
  flipX : bool;
  flipY : bool
}.

(** Modelled from the spec: the class [Point2D] is imported from
    [./Point2D], which is not among the sources; the spec gives it as a pair
    of real numbers [(x, y)], built by [new Point2D(x, y)]. *)
Record Point2D : Type := mkPoint { px : R; py : R }.

(** *** The JavaScript operators and [Math] functions the file uses *)

(** Truthiness of a number: every number but zero (NaN does not occur among
    real numbers). *)
Definition truthy (v : R) : bool := if Req_dec_T v 0 then false else true.

(** [v || d] on numbers *)
Definition or_else (v d : R) : R := if truthy v then v else d.

(** [v !== w] on numbers *)
Definition neqb (v w : R) : bool := if Req_dec_T v w then false else true.

(** [Math.atan2(y, x)]: the angle of the point [(x, y)], in [(-PI, PI]];
    [0] at the origin. *)
Definition atan2 (y x : R) : R :=
  if Rlt_dec 0 x then atan (y / x)
  else if Rlt_dec x 0 then
    if Rle_dec 0 y then atan (y / x) + PI else atan (y / x) - PI
  else if Rlt_dec 0 y then PI / 2
  else if Rlt_dec y 0 then - (PI / 2)
  else 0.

(** *** The functions of Matrix2X3.ts *)

Definition getIdentityMatrix2X3 : Matrix2X3Array := Mat 1 0 0 1 0 0.

Definition getIdentityTransformOption : TRANSFORM_OPTION :=
  {| angle := 0; scaleX := 1; scaleY := 1; skewX := 0; skewY := 0;
     translateX := 0; translateY := 0; flipX := false; flipY := false |}.

Definition multiplyMatrix2X3 (a b : Matrix2X3Array) : Matrix2X3Array :=
  let '(Mat a0 a1 a2 a3 a4 a5) := a in
  let '(Mat b0 b1 b2 b3 b4 b5) := b in
  Mat (a0 * b0 + a2 * b1)
      (a1 * b0 + a3 * b1)
      (a0 * b2 + a2 * b3)
      (a1 * b2 + a3 * b3)
      (a0 * b4 + a2 * b5 + a4)
      (a1 * b4 + a3 * b5 + a5).

Definition transformPoint2D (p : Point2D) (t : Matrix2X3Array)
    (ignoreOffset : bool) : Point2D :=
  let '(Mat t0 t1 t2 t3 t4 t5) := t in
  if ignoreOffset then
    mkPoint (t0 * px p + t2 * py p) (t1 * px p + t3 * py p)
  else
    mkPoint (t0 * px p + t2 * py p + t4) (t1 * px p + t3 * py p + t5).

Definition invertMatrix2X3 (t : Matrix2X3Array) : Matrix2X3Array :=
  let '(Mat t0 t1 t2 t3 t4 t5) := t in
  let a := 1 / (t0 * t3 - t1 * t2) in
  let r := Mat (a * t3) (- a * t1) (- a * t2) (a * t0) 0 0 in
  let o := transformPoint2D (mkPoint t4 t5) r true in
  let '(Mat r0 r1 r2 r3 _ _) := r in
  Mat r0 r1 r2 r3 (- px o) (- py o).           (* r[4] = -o.x; r[5] = -o.y *)

Definition calcRotateMatrix2X3 (options : TRANSFORM_OPTION)
    : Matrix2X3Array :=
  if negb (truthy (angle options)) then getIdentityMatrix2X3
  else
    let cos := cos (angle options) in
    let sin := sin (angle options) in
    Mat cos sin (- sin) cos 0 0.

(** The fields of [TRANSFORM_OPTION] are declared [number], so the
    [typeof ... === 'undefined'] tests of lines 190-191 are false and
    [scaleX], [scaleY] are the fields themselves. *)
Definition calcDimensionsMatrix2X3 (options : TRANSFORM_OPTION)
    : Matrix2X3Array :=
  let scaleX := scaleX options in
  let scaleY := scaleY options in
  let scaleMatrix :=
    Mat (if flipX options then - scaleX else scaleX) 0
        0 (if flipY options then - scaleY else scaleY)
        0 0 in
  let scaleMatrix :=
    if truthy (skewX options) then
      multiplyMatrix2X3 scaleMatrix (Mat 1 0 (tan (skewX options)) 1 0 0)
    else scaleMatrix in
  let scaleMatrix :=
    if truthy (skewY options) then
      multiplyMatrix2X3 scaleMatrix (Mat 1 (tan (skewY options)) 0 1 0 0)
    else scaleMatrix in
  scaleMatrix.

(** The test of lines 57-58. *)
Definition hasDimensions (options : TRANSFORM_OPTION) : bool :=
  neqb (scaleX options) 1 || neqb (scaleY options) 1 ||
  truthy (skewX options) || truthy (skewY options) ||
  flipX options || flipY options.

Definition composeMatrix2X3 (options : TRANSFORM_OPTION) : Matrix2X3Array :=
  let matrix :=
    Mat 1 0 0 1 (or_else (translateX options) 0)
                (or_else (translateY options) 0) in
  let matrix :=
    if truthy (angle options) then
      multiplyMatrix2X3 matrix (calcRotateMatrix2X3 options)
    else matrix in
  let matrix :=
    if hasDimensions options then
      multiplyMatrix2X3 matrix (calcDimensionsMatrix2X3 options)
    else matrix in
  matrix.

Definition decomposeMatrix2X3 (a : Matrix2X3Array) : TRANSFORM_OPTION :=
  let '(Mat a0 a1 a2 a3 a4 a5) := a in
  let angle := atan2 a1 a0 in
  let scaleX := a1 / sin angle in
  let scaleY := (a0 * a3 - a2 * a1) / scaleX in
  let skewX := atan2 (a0 * a2 + a1 * a3) (a0 ^ 2 + a1 ^ 2) in
  {| angle := angle;
     scaleX := Rabs scaleX;
     scaleY := Rabs scaleY;
     skewX := skewX;
     skewY := 0;
     flipX := if Rgtb scaleX 0 then false else true;
     flipY := if Rgtb scaleY 0 then false else true;
     translateX := a4;
     translateY := a5 |}.

(** *** Notions used to state the properties *)

(** The determinant [t[0] * t[3] - t[1] * t[2]] that [invertMatrix2X3]
    divides by. *)
Definition det (m : Matrix2X3Array) : R :=
  let '(Mat t0 t1 t2 t3 _ _) := m in t0 * t3 - t1 * t2.

(** [r] recovers [o]: the angle, the magnitudes of the two scales, the
    skew, the translation and the two flip flags of [o] are those of [r]. *)
Definition recovers (o r : TRANSFORM_OPTION) : Prop :=
  angle r = angle o /\
  scaleX r = Rabs (scaleX o) /\
  scaleY r = Rabs (scaleY o) /\
  skewX r = skewX o /\
  translateX r = translateX o /\
  translateY r = translateY o /\
  flipX r = flipX o /\
  flipY r = flipY o.

(** A quarter turn of the unit square, flipped horizontally. *)
Definition flippedQuarterTurn : TRANSFORM_OPTION :=
  {| angle := PI / 2; scaleX := 1; scaleY := 1; skewX := 0; skewY := 0;
     translateX := 0; translateY := 0; flipX := true; flipY := false |}.

(** A quarter turn the other way, flipped vertically. *)
Definition backQuarterTurnFlippedY : TRANSFORM_OPTION :=
  {| angle := - (PI / 2); scaleX := 1; scaleY := 1; skewX := 0; skewY := 0;
     translateX := 0; translateY := 0; flipX := false; flipY := true |}.

(** A quarter turn that doubles widths, triples heights and flips
    vertically, moved by [(5, 0)]. *)
Definition stretchedQuarterTurn : TRANSFORM_OPTION :=
  {| angle := PI / 2; scaleX := 2; scaleY := 3; skewX := 0; skewY := 0;
     translateX := 5; translateY := 0; flipX := false; flipY := true |}.

(** *** The unconditional paths of [composeMatrix2X3]

    The spec calls the two tests of [composeMatrix2X3] an optimization and
    compares it with the path that multiplies without testing.  These two
    definitions follow the spec's words: each drops one test and keeps the
    rest of [composeMatrix2X3]. *)

Definition composeAlwaysRotate (options : TRANSFORM_OPTION)
    : Matrix2X3Array :=
  let matrix :=
    Mat 1 0 0 1 (or_else (translateX options) 0)
                (or_else (translateY options) 0) in
  let matrix := multiplyMatrix2X3 matrix (calcRotateMatrix2X3 options) in
  let matrix :=
    if hasDimensions options then
      multiplyMatrix2X3 matrix (calcDimensionsMatrix2X3 options)
    else matrix in
  matrix.

Definition composeAlwaysDimensions (options : TRANSFORM_OPTION)
    : Matrix2X3Array :=
  let matrix :=
    Mat 1 0 0 1 (or_else (translateX options) 0)
                (or_else (translateY options) 0) in
  let matrix :=
    if truthy (angle options) then
      multiplyMatrix2X3 matrix (calcRotateMatrix2X3 options)
    else matrix in
  multiplyMatrix2X3 matrix (calcDimensionsMatrix2X3 options).

(** The path with no test at all: translation, then the rotation by
    [angle], then scale and flip, shear by [skewX] and shear by [skewY]. *)
Definition composeUnconditional (options : TRANSFORM_OPTION)
    : Matrix2X3Array :=
  let matrix :=
    Mat 1 0 0 1 (or_else (translateX options) 0)
                (or_else (translateY options) 0) in
  let rotate :=
    Mat (cos (angle options)) (sin (angle options))
        (- sin (angle options)) (cos (angle options)) 0 0 in
  let scaleMatrix :=
    Mat (if flipX options then - scaleX options else scaleX options) 0
        0 (if flipY options then - scaleY options else scaleY options)
        0 0 in
  let dimensions :=
    multiplyMatrix2X3
      (multiplyMatrix2X3 scaleMatrix (Mat 1 0 (tan (skewX options)) 1 0 0))
      (Mat 1 (tan (skewY options)) 0 1 0 0) in
  multiplyMatrix2X3 (multiplyMatrix2X3 matrix rotate) dimensions.

(** *** The rest of Matrix2X3.ts: rotations and bounding boxes *)

Local Open Scope list_scope.

(** Modelled from the spec: the methods [sub] and [add] of [Point2D] are
    in [./Point2D], which is not among the sources; the spec defines them
    componentwise. *)
Definition Point2D_sub (p q : Point2D) : Point2D :=
  mkPoint (px p - px q) (py p - py q).
Definition Point2D_add (p q : Point2D) : Point2D :=
  mkPoint (px p + px q) (py p + py q).

Definition rotateVector2D (vector : Point2D) (angle : R) : Point2D :=
  let sin := sin angle in
  let cos := cos angle in
  let rx := px vector * cos - py vector * sin in
  let ry := px vector * sin + py vector * cos in
  mkPoint rx ry.

Definition rotatePoint2D (point origin : Point2D) (angle : R) : Point2D :=
  let vector := Point2D_sub point origin in
  let vector := rotateVector2D vector angle in
  Point2D_add vector origin.

(** What [Math.min], [Math.max] and a subtraction of their results give on
    real arguments: a real number, or one of the three values that are not
    real numbers. *)
Inductive JsNumber : Type :=
  | Finite (v : R)
  | Infinity
  | NegInfinity
  | NaN.

(** [Math.min(...xs)] and [Math.max(...xs)]: [Infinity] and [-Infinity]
    without arguments. *)
Definition Math_min (xs : list R) : JsNumber :=
  match xs with
  | nil => Infinity
  | v :: vs => Finite (fold_left Rmin vs v)
  end.

Definition Math_max (xs : list R) : JsNumber :=
  match xs with
  | nil => NegInfinity
  | v :: vs => Finite (fold_left Rmax vs v)
  end.

(** [a - b] *)
Definition js_sub (a b : JsNumber) : JsNumber :=
  match a, b with
  | NaN, _ | _, NaN => NaN
  | Finite v, Finite w => Finite (v - w)
  | Finite _, Infinity => NegInfinity
  | Finite _, NegInfinity => Infinity
  | Infinity, Infinity => NaN
  | Infinity, _ => Infinity
  | NegInfinity, NegInfinity => NaN
  | NegInfinity, _ => NegInfinity
  end.

(** [points[i] = v] for an index inside the array. *)
Fixpoint array_set (points : list Point2D) (i : nat) (v : Point2D)
    : list Point2D :=
  match points, i with
  | nil, _ => nil
  | _ :: rest, O => v :: rest
  | p :: rest, S j => p :: array_set rest j v
  end.

(** The loop of lines 250-252, with [count] iterations left and the loop
    variable at [i]. *)
Fixpoint transformLoop (transform : Matrix2X3Array) (count i : nat)
    (points : list Point2D) : list Point2D :=
  match count with
  | O => points
  | S count' =>
      let points' :=
        match nth_error points i with
        | Some p => array_set points i (transformPoint2D p transform false)
        | None => points
        end in
      transformLoop transform count' (S i) points'
  end.

Record BoundingBox : Type := mkBox {
  left : JsNumber; top : JsNumber; width : JsNumber; height : JsNumber
}.

(** [points] is an array the function writes to: the result is the array
    after the call together with the returned object.  [transform] is
    tested for truthiness, so it may be absent. *)
Definition makeBoundingBoxFromPoints (points : list Point2D)
    (transform : option Matrix2X3Array) : list Point2D * BoundingBox :=
  let points :=
    match transform with
    | Some t => transformLoop t (length points) 0 points
    | None => points
    end in
  let xs := map px points in
  let ys := map py points in
  let minX := Math_min xs in
  let maxX := Math_max xs in
  let width := js_sub maxX minX in
  let minY := Math_min ys in
  let maxY := Math_max ys in
  let height := js_sub maxY minY in
  (points, {| left := minX; top := minY; width := width; height := height |}).

(** The object [{ width, height }] returned by [sizeAfterTransform]. *)
Record Size : Type := mkSize { size_width : JsNumber; size_height : JsNumber }.

Definition sizeAfterTransform (width height : R) (options : TRANSFORM_OPTION)
    : Size :=
  let dimX := width / 2 in
  let dimY := height / 2 in
  let points :=
    mkPoint (- dimX) (- dimY) :: mkPoint dimX (- dimY) ::
    mkPoint (- dimX) dimY :: mkPoint dimX dimY :: nil in
  let transformMatrix := calcDimensionsMatrix2X3 options in
  let bbox := snd (makeBoundingBoxFromPoints points (Some transformMatrix)) in
  let '(mkBox _ _ bboxWidth bboxHeight) := bbox in
  {| size_width := bboxWidth; size_height := bboxHeight |}.

End Matrix2X3.

(** * Properties of Matrix2X3 *)

Section MatrixAlgebra.
Import Matrix2X3.
Local Open Scope R_scope.

(** Two matrices are equal when their six entries are. *)
Ltac mat_eq := repeat match goal with
  | m : Matrix2X3Array |- _ => destruct m
  | p : Point2D |- _ => destruct p
  end; cbn; f_equal.

Lemma multiply_identity_r (m : Matrix2X3Array) :
  multiplyMatrix2X3 m getIdentityMatrix2X3 = m.
Proof. mat_eq; ring. Qed.

Lemma multiply_identity_l (m : Matrix2X3Array) :
  multiplyMatrix2X3 getIdentityMatrix2X3 m = m.
Proof. mat_eq; ring. Qed.

(** C6.  Applying the product [multiplyMatrix2X3 a b] to a point is applying
    [b] first and [a] to the result, for all matrices and points (offsets
    applied, the default [ignoreOffset = false]). *)
Theorem transform_multiply (a b : Matrix2X3Array) (p : Point2D) :
  transformPoint2D p (multiplyMatrix2X3 a b) false =
  transformPoint2D (transformPoint2D p b false) a false.
Proof. mat_eq; ring. Qed.

(** C7.  [multiplyMatrix2X3] is associative, [getIdentityMatrix2X3], which
    is [(1,0,0,1,0,0)], is a two-sided identity, and the product is not
    commutative: a scaling and a translation do not commute. *)
Theorem multiply_assoc_identity_not_comm :
  (forall a b c : Matrix2X3Array,
     multiplyMatrix2X3 (multiplyMatrix2X3 a b) c =
     multiplyMatrix2X3 a (multiplyMatrix2X3 b c)) /\
  getIdentityMatrix2X3 = Mat 1 0 0 1 0 0 /\
  (forall m : Matrix2X3Array,
     multiplyMatrix2X3 m getIdentityMatrix2X3 = m /\
     multiplyMatrix2X3 getIdentityMatrix2X3 m = m) /\
  (exists a b : Matrix2X3Array,
     multiplyMatrix2X3 a b <> multiplyMatrix2X3 b a).
Proof.
  split; [| split; [| split]].
  - intros a b c. mat_eq; ring.
  - reflexivity.
  - intros m. split; [apply multiply_identity_r | apply multiply_identity_l].
  - exists (Mat 2 0 0 1 0 0), (Mat 1 0 0 1 1 0). cbn. intros E.
    injection E as E. lra.
Qed.

(** C5.  For a matrix with non-zero determinant, inverting twice gives the
    matrix back, and transforming a point by the matrix and then by its
    inverse gives the point back. *)
Theorem invert_involutive_and_undoes (m : Matrix2X3Array) (p : Point2D) :
  det m <> 0 ->
  invertMatrix2X3 (invertMatrix2X3 m) = m /\
  transformPoint2D (transformPoint2D p m false) (invertMatrix2X3 m) false = p.
Proof.
  destruct m as [t0 t1 t2 t3 t4 t5], p as [x y]. cbn. intros Hdet.
  split; f_equal; field; try assumption.
  all: try (split; [assumption |]).
  all: intros E; apply Hdet; field_simplify in E; try assumption; nra.
Qed.

Lemma invert_involutive_and_undoes_witness :
  det (Mat 2 0 0 1 5 0) <> 0 /\
  invertMatrix2X3 (invertMatrix2X3 (Mat 2 0 0 1 5 0)) = Mat 2 0 0 1 5 0 /\
  transformPoint2D (transformPoint2D (mkPoint 1 1) (Mat 2 0 0 1 5 0) false)
    (invertMatrix2X3 (Mat 2 0 0 1 5 0)) false = mkPoint 1 1.
Proof.
  assert (H : det (Mat 2 0 0 1 5 0) <> 0) by (cbn; lra).
  split; [exact H |].
  exact (invert_involutive_and_undoes (Mat 2 0 0 1 5 0) (mkPoint 1 1) H).
Defined.

End MatrixAlgebra.

Section ComposeSkips.
Import Matrix2X3.
Local Open Scope R_scope.

Lemma truthy_false (v : R) : truthy v = false <-> v = 0.
Proof. unfold truthy. destruct (Req_dec_T v 0); split; congruence. Qed.

Lemma neqb_false (v w : R) : neqb v w = false <-> v = w.
Proof. unfold neqb. destruct (Req_dec_T v w); split; congruence. Qed.

Lemma calcRotate_skipped (o : TRANSFORM_OPTION) :
  truthy (angle o) = false -> calcRotateMatrix2X3 o = getIdentityMatrix2X3.
Proof. intros H. unfold calcRotateMatrix2X3. rewrite H. reflexivity. Qed.

Lemma hasDimensions_false (o : TRANSFORM_OPTION) :
  hasDimensions o = false <->
  scaleX o = 1 /\ scaleY o = 1 /\ skewX o = 0 /\ skewY o = 0 /\
  flipX o = false /\ flipY o = false.
Proof.
  unfold hasDimensions. rewrite !orb_false_iff, !neqb_false, !truthy_false.
  tauto.
Qed.

Lemma calcDimensions_skipped (o : TRANSFORM_OPTION) :
  hasDimensions o = false -> calcDimensionsMatrix2X3 o = getIdentityMatrix2X3.
Proof.
  intros H. apply hasDimensions_false in H.
  destruct H as (Hsx & Hsy & Hkx & Hky & Hfx & Hfy).
  unfold calcDimensionsMatrix2X3.
  rewrite (proj2 (truthy_false _) Hkx), (proj2 (truthy_false _) Hky).
  rewrite Hsx, Hsy, Hfx, Hfy. reflexivity.
Qed.

(** On every input [composeMatrix2X3] is the product of the translation,
    the rotation matrix and the dimensions matrix. *)
Lemma compose_product (o : TRANSFORM_OPTION) :
  composeMatrix2X3 o =
  multiplyMatrix2X3
    (multiplyMatrix2X3
       (Mat 1 0 0 1 (or_else (translateX o) 0) (or_else (translateY o) 0))
       (calcRotateMatrix2X3 o))
    (calcDimensionsMatrix2X3 o).
Proof.
  unfold composeMatrix2X3.
  destruct (truthy (angle o)) eqn:Ha, (hasDimensions o) eqn:Hd;
    try rewrite (calcRotate_skipped o Ha);
    try rewrite (calcDimensions_skipped o Hd);
    rewrite ?multiply_identity_r; reflexivity.
Qed.

(** The shortcuts of [calcRotateMatrix2X3] and [calcDimensionsMatrix2X3]
    give the matrices of the general formulas. *)
Lemma calcRotate_formula (o : TRANSFORM_OPTION) :
  calcRotateMatrix2X3 o =
  Mat (cos (angle o)) (sin (angle o)) (- sin (angle o)) (cos (angle o)) 0 0.
Proof.
  unfold calcRotateMatrix2X3. destruct (truthy (angle o)) eqn:Ha; cbn.
  - reflexivity.
  - apply truthy_false in Ha. rewrite Ha, cos_0, sin_0.
    unfold getIdentityMatrix2X3. f_equal; ring.
Qed.

Lemma calcDimensions_formula (o : TRANSFORM_OPTION) :
  calcDimensionsMatrix2X3 o =
  multiplyMatrix2X3
    (multiplyMatrix2X3
       (Mat (if flipX o then - scaleX o else scaleX o) 0
            0 (if flipY o then - scaleY o else scaleY o) 0 0)
       (Mat 1 0 (tan (skewX o)) 1 0 0))
    (Mat 1 (tan (skewY o)) 0 1 0 0).
Proof.
  unfold calcDimensionsMatrix2X3.
  destruct (truthy (skewX o)) eqn:Hx, (truthy (skewY o)) eqn:Hy;
    try (apply truthy_false in Hx; rewrite Hx, tan_0);
    try (apply truthy_false in Hy; rewrite Hy, tan_0);
    cbn; f_equal; ring.
Qed.

(** C8.  The two tests of [composeMatrix2X3] change nothing: with
    [angle = 0] the result is that of the path that always multiplies by
    the rotation matrix, and with [scaleX = 1], [scaleY = 1], [skewX = 0],
    [skewY = 0] and no flip it is that of the path that always multiplies
    by the dimensions matrix; on every input the result is that of the
    path with no test at all. *)
Theorem compose_skips_refine (o : TRANSFORM_OPTION) :
  (angle o = 0 -> composeMatrix2X3 o = composeAlwaysRotate o) /\
  (scaleX o = 1 -> scaleY o = 1 -> skewX o = 0 -> skewY o = 0 ->
   flipX o = false -> flipY o = false ->
   composeMatrix2X3 o = composeAlwaysDimensions o) /\
  composeMatrix2X3 o = composeUnconditional o.
Proof.
  split; [| split].
  - intros Ha. apply truthy_false in Ha.
    unfold composeMatrix2X3, composeAlwaysRotate.
    rewrite Ha, (calcRotate_skipped o Ha), multiply_identity_r. reflexivity.
  - intros Hsx Hsy Hkx Hky Hfx Hfy.
    assert (Hd : hasDimensions o = false) by (apply hasDimensions_false; tauto).
    unfold composeMatrix2X3, composeAlwaysDimensions.
    rewrite Hd, (calcDimensions_skipped o Hd), multiply_identity_r.
    reflexivity.
  - rewrite compose_product, calcRotate_formula, calcDimensions_formula.
    reflexivity.
Qed.

Lemma compose_skips_refine_witness :
  composeMatrix2X3 getIdentityTransformOption =
    composeAlwaysRotate getIdentityTransformOption /\
  composeMatrix2X3 getIdentityTransformOption =
    composeAlwaysDimensions getIdentityTransformOption.
Proof.
  destruct (compose_skips_refine getIdentityTransformOption)
    as (Hrot & Hdim & _).
  split.
  - apply Hrot. reflexivity.
  - apply Hdim; reflexivity.
Defined.

End ComposeSkips.

(** * decomposeMatrix2X3 after composeMatrix2X3 *)

Section Decompose.
Import Matrix2X3.
Local Open Scope R_scope.

Lemma tan_shift (t : R) : cos t <> 0 -> tan (t + PI) = tan t.
Proof.
  intros Hc. unfold tan. rewrite neg_sin, neg_cos. field. assumption.
Qed.

Lemma cos_pos_range (t : R) : - PI < t <= PI -> 0 < cos t -> - (PI / 2) < t < PI / 2.
Proof.
  intros Ht Hc. pose proof PI_RGT_0 as Hpi. split.
  - destruct (Rlt_dec (- (PI / 2)) t) as [|Hn]; [assumption | exfalso].
    assert (Hc' : cos (- t) <= 0) by (apply cos_le_0; lra).
    rewrite cos_neg in Hc'. lra.
  - destruct (Rlt_dec t (PI / 2)) as [|Hn]; [assumption | exfalso].
    assert (Hc' : cos t <= 0) by (apply cos_le_0; lra). lra.
Qed.

Lemma sin_nonneg_range (t : R) : - PI < t <= PI -> 0 <= sin t -> 0 <= t.
Proof.
  intros Ht Hs. destruct (Rle_dec 0 t) as [|Hn]; [assumption | exfalso].
  assert (sin t < 0) by (apply sin_lt_0_var; lra). lra.
Qed.

Lemma sin_neg_range (t : R) : - PI < t <= PI -> sin t < 0 -> t < 0.
Proof.
  intros Ht Hs. destruct (Rlt_dec t 0) as [|Hn]; [assumption | exfalso].
  assert (0 <= sin t) by (apply sin_ge_0; lra). lra.
Qed.

Lemma atan2_polar (rho t : R) :
  0 < rho -> - PI < t <= PI -> atan2 (rho * sin t) (rho * cos t) = t.
Proof.
  intros Hrho Ht. pose proof PI_RGT_0 as Hpi. unfold atan2.
  assert (Hq : cos t <> 0 -> rho * sin t / (rho * cos t) = tan t).
  { intros Hc. unfold tan. field. split; lra. }
  destruct (Rlt_dec 0 (rho * cos t)) as [Hx | Hx].
  - assert (Hc : 0 < cos t) by nra.
    rewrite Hq by lra. apply atan_tan. apply cos_pos_range; assumption.
  - destruct (Rlt_dec (rho * cos t) 0) as [Hx' | Hx'].
    + assert (Hc : cos t < 0) by nra. rewrite Hq by lra.
      destruct (Rle_dec 0 (rho * sin t)) as [Hy | Hy].
      * assert (Hs : 0 <= sin t) by nra.
        pose proof (sin_nonneg_range t Ht Hs) as Ht0.
        assert (PI / 2 < t).
        { destruct (Rlt_dec (PI / 2) t) as [|Hn]; [assumption | exfalso].
          assert (0 <= cos t) by (apply cos_ge_0; lra). lra. }
        replace (tan t) with (tan (t - PI)).
        2:{ rewrite <- (tan_shift (t - PI)).
            - f_equal. ring.
            - replace (t - PI) with (- (PI - t)) by ring.
              rewrite cos_neg. replace (PI - t) with (- t + PI) by ring.
              rewrite neg_cos, cos_neg. lra. }
        rewrite atan_tan by lra. ring.
      * assert (Hs : sin t < 0) by nra.
        pose proof (sin_neg_range t Ht Hs) as Ht0.
        assert (t < - (PI / 2)).
        { destruct (Rlt_dec t (- (PI / 2))) as [|Hn]; [assumption | exfalso].
          assert (0 <= cos t) by (apply cos_ge_0; lra). lra. }
        rewrite <- (tan_shift t) by lra.
        rewrite atan_tan by lra. ring.
    + assert (Hc : cos t = 0) by nra.
      destruct (Rlt_dec 0 (rho * sin t)) as [Hy | Hy].
      * assert (Hs : 0 <= sin t) by nra.
        pose proof (sin_nonneg_range t Ht Hs) as Ht0.
        destruct (cos_eq_0_2PI_0 t) as [E | E]; lra.
      * destruct (Rlt_dec (rho * sin t) 0) as [Hy' | Hy'].
        -- assert (Hs : sin t < 0) by nra.
           pose proof (sin_neg_range t Ht Hs) as Ht0.
           destruct (cos_eq_0_2PI_0 (- t)) as [E | E]; try lra.
           rewrite cos_neg. assumption.
        -- exfalso. apply (cos_sin_0 t). split; [assumption | nra].
Qed.

(** [sin (atan2 y x)] has the sign of [y]. *)
Lemma sin_atan2_sign (y x : R) : y <> 0 -> 0 < y / sin (atan2 y x).
Proof.
  intros Hy. pose proof PI_RGT_0 as Hpi. unfold atan2.
  assert (Hdiv : forall s, (0 < y -> 0 < s) -> (y < 0 -> s < 0) -> 0 < y / s).
  { intros s Hp Hn. destruct (Rlt_dec 0 y) as [H|H].
    - apply Rdiv_lt_0_compat; auto.
    - assert (y < 0) by lra. replace (y / s) with ((- y) / (- s)).
      + apply Rdiv_lt_0_compat; [lra | specialize (Hn H0); lra].
      + field. specialize (Hn H0). lra. }
  apply Hdiv; intros Hsign.
  - destruct (Rlt_dec 0 x) as [Hx | Hx].
    + apply sin_gt_0.
      * rewrite <- atan_0. apply atan_increasing. apply Rdiv_lt_0_compat; lra.
      * pose proof (atan_bound (y / x)). lra.
    + destruct (Rlt_dec x 0) as [Hx' | Hx'].
      * destruct (Rle_dec 0 y); [| lra].
        pose proof (atan_bound (y / x)).
        assert (atan (y / x) < 0).
        { rewrite <- atan_0. apply atan_increasing.
          replace (y / x) with (- (y / (- x))) by (field; lra).
          assert (0 < y / - x) by (apply Rdiv_lt_0_compat; lra). lra. }
        apply sin_gt_0; lra.
      * destruct (Rlt_dec 0 y); [| lra]. rewrite sin_PI2. lra.
  - destruct (Rlt_dec 0 x) as [Hx | Hx].
    + apply sin_lt_0_var.
      * pose proof (atan_bound (y / x)). lra.
      * rewrite <- atan_0. apply atan_increasing.
        replace (y / x) with (- ((- y) / x)) by (field; lra).
        assert (0 < - y / x) by (apply Rdiv_lt_0_compat; lra). lra.
    + destruct (Rlt_dec x 0) as [Hx' | Hx'].
      * destruct (Rle_dec 0 y); [lra |].
        pose proof (atan_bound (y / x)).
        assert (0 < atan (y / x)).
        { rewrite <- atan_0. apply atan_increasing.
          replace (y / x) with ((- y) / (- x)) by (field; lra).
          apply Rdiv_lt_0_compat; lra. }
        apply sin_lt_0_var; lra.
      * destruct (Rlt_dec 0 y); [lra |]. destruct (Rlt_dec y 0); [| lra].
        rewrite sin_neg, sin_PI2. lra.
Qed.

(** [Math.atan2] returns an angle in [(-PI, PI]], so
    [decomposeMatrix2X3] cannot return an angle outside it, nor a [skewX]
    outside it. *)
Lemma atan2_bound (y x : R) : - PI < atan2 y x <= PI.
Proof.
  pose proof PI_RGT_0 as Hpi. pose proof (atan_bound (y / x)) as Hb.
  unfold atan2.
  destruct (Rlt_dec 0 x) as [Hx | Hx]; [lra |].
  destruct (Rlt_dec x 0) as [Hx' | Hx'].
  - destruct (Rle_dec 0 y) as [Hy | Hy].
    + assert (atan (y / x) <= 0); [| lra].
      destruct (Req_dec y 0) as [E | E].
      * rewrite E. unfold Rdiv. rewrite Rmult_0_l, atan_0. lra.
      * rewrite <- atan_0. left. apply atan_increasing.
        replace (y / x) with (- (y / (- x))) by (field; lra).
        assert (0 < y / - x) by (apply Rdiv_lt_0_compat; lra). lra.
    + assert (0 < atan (y / x)); [| lra].
      rewrite <- atan_0. apply atan_increasing.
      replace (y / x) with ((- y) / (- x)) by (field; lra).
      apply Rdiv_lt_0_compat; lra.
  - destruct (Rlt_dec 0 y); [lra |]. destruct (Rlt_dec y 0); lra.
Qed.

Lemma decompose_angle_bound (a : Matrix2X3Array) :
  - PI < angle (decomposeMatrix2X3 a) <= PI /\
  - PI < skewX (decomposeMatrix2X3 a) <= PI.
Proof. destruct a. cbn. split; apply atan2_bound. Qed.

(** [decomposeMatrix2X3] never reports a horizontal flip: its [scaleX],
    [a[1] / sin(atan2(a[1], a[0]))], is positive. *)
Lemma decompose_flipX_false (a0 a1 a2 a3 a4 a5 : R) :
  a1 <> 0 -> flipX (decomposeMatrix2X3 (Mat a0 a1 a2 a3 a4 a5)) = false.
Proof.
  intros Ha1. cbn. pose proof (sin_atan2_sign a1 a0 Ha1) as Hpos.
  unfold Rgtb. destruct (Rgt_dec (a1 / sin (atan2 a1 a0)) 0) as [|Hn].
  - reflexivity.
  - exfalso. apply Hn. exact Hpos.
Qed.

(** The entries of the composed matrix when the rotation is applied and
    [skewY] is zero. *)
Lemma compose_entries (o : TRANSFORM_OPTION) :
  angle o <> 0 -> skewY o = 0 ->
  let c := cos (angle o) in
  let s := sin (angle o) in
  let s1 := if flipX o then - scaleX o else scaleX o in
  let s2 := if flipY o then - scaleY o else scaleY o in
  let t := tan (skewX o) in
  composeMatrix2X3 o =
  Mat (s1 * c) (s1 * s) (c * (s1 * t) - s * s2) (s * (s1 * t) + c * s2)
      (translateX o) (translateY o).
Proof.
  intros Ha Hky c s s1 s2 t. rewrite compose_product.
  assert (Hta : truthy (angle o) = true).
  { destruct (truthy (angle o)) eqn:E; [reflexivity |].
    apply truthy_false in E. contradiction. }
  unfold calcRotateMatrix2X3, calcDimensionsMatrix2X3. rewrite Hta.
  rewrite (proj2 (truthy_false _) Hky).
  assert (Htr : forall v, or_else v 0 = v).
  { intros v. unfold or_else. destruct (truthy v) eqn:E; [reflexivity |].
    apply truthy_false in E. congruence. }
  rewrite !Htr. fold s1 s2 c s.
  destruct (truthy (skewX o)) eqn:Hkx.
  - fold t. cbn. f_equal; ring.
  - apply truthy_false in Hkx. subst t. rewrite Hkx, tan_0.
    cbn. f_equal; ring.
Qed.

Lemma sin_nonzero (t : R) : - PI < t < PI -> t <> 0 -> sin t <> 0.
Proof.
  intros Ht Hne. destruct (Rlt_dec t 0) as [Hneg | Hpos].
  - assert (sin t < 0) by (apply sin_lt_0_var; lra). lra.
  - assert (0 < sin t) by (apply sin_gt_0; lra). lra.
Qed.

Lemma sin2_cos2_mult (t : R) : sin t * sin t + cos t * cos t = 1.
Proof. exact (sin2_cos2 t). Qed.

(** What [decomposeMatrix2X3] returns on a matrix given by its rotation
    [th], its signed scales [s1 > 0] and [s2], and its shear [t]. *)
Lemma decompose_entries (th s1 s2 t tx ty : R) :
  0 < s1 -> - PI < th < PI -> th <> 0 ->
  decomposeMatrix2X3
    (Mat (s1 * cos th) (s1 * sin th)
         (cos th * (s1 * t) - sin th * s2) (sin th * (s1 * t) + cos th * s2)
         tx ty) =
  {| angle := th; scaleX := s1; scaleY := Rabs s2;
     skewX := atan t; skewY := 0; translateX := tx; translateY := ty;
     flipX := false; flipY := if Rgtb s2 0 then false else true |}.
Proof.
  intros Hs1 Hth Hth0. unfold decomposeMatrix2X3.
  pose proof (sin_nonzero th Hth Hth0) as Hs.
  pose proof (sin2_cos2_mult th) as Hcs.
  rewrite atan2_polar by lra.
  replace (s1 * sin th / sin th) with s1 by (field; assumption).
  replace ((s1 * cos th * (sin th * (s1 * t) + cos th * s2) -
            (cos th * (s1 * t) - sin th * s2) * (s1 * sin th)) / s1)
    with (s2 * (sin th * sin th + cos th * cos th)) by (field; lra).
  replace (s1 * cos th * (cos th * (s1 * t) - sin th * s2) +
           s1 * sin th * (sin th * (s1 * t) + cos th * s2))
    with (s1 * s1 * t * (sin th * sin th + cos th * cos th)) by ring.
  replace ((s1 * cos th) ^ 2 + (s1 * sin th) ^ 2)
    with (s1 * s1 * (sin th * sin th + cos th * cos th)) by ring.
  rewrite Hcs, !Rmult_1_r.
  assert (Hk : atan2 (s1 * s1 * t) (s1 * s1) = atan t).
  { unfold atan2. destruct (Rlt_dec 0 (s1 * s1)) as [_ | Hn]; [| exfalso; nra].
    f_equal. field. lra. }
  rewrite Hk, (Rabs_pos_eq s1) by lra.
  unfold Rgtb at 1. destruct (Rgt_dec s1 0); [reflexivity | lra].
Qed.

(** C1, as the code has it.  With [skewY = 0], positive [scaleX] and
    [scaleY], no horizontal flip, [angle] in [(-PI, PI)] and not zero, and
    [skewX] in [(-PI/2, PI/2)], decomposing the composed matrix gives the
    options back: it recovers them in the sense of the claim, and every
    field is equal. *)
Theorem decompose_compose (o : TRANSFORM_OPTION) :
  skewY o = 0 ->
  0 < scaleX o -> 0 < scaleY o -> flipX o = false ->
  - PI < angle o < PI -> angle o <> 0 ->
  - (PI / 2) < skewX o < PI / 2 ->
  recovers o (decomposeMatrix2X3 (composeMatrix2X3 o)) /\
  decomposeMatrix2X3 (composeMatrix2X3 o) = o.
Proof.
  intros Hky Hsx Hsy Hfx Ha Ha0 Hkx.
  assert (Heq : decomposeMatrix2X3 (composeMatrix2X3 o) = o).
  { rewrite (compose_entries o Ha0 Hky). rewrite Hfx.
    rewrite decompose_entries by assumption.
    rewrite atan_tan by assumption.
    destruct o as [th sx sy kx ky tx ty fx fy]; cbn in *. subst ky fx.
    f_equal.
    - destruct fy; [rewrite Rabs_Ropp |]; apply Rabs_pos_eq; lra.
    - unfold Rgtb. destruct fy.
      + destruct (Rgt_dec (- sy) 0); [lra | reflexivity].
      + destruct (Rgt_dec sy 0); [reflexivity | lra]. }
  split; [| exact Heq].
  rewrite Heq. unfold recovers.
  rewrite !Rabs_pos_eq by lra. tauto.
Qed.

Lemma decompose_compose_witness :
  recovers stretchedQuarterTurn
    (decomposeMatrix2X3 (composeMatrix2X3 stretchedQuarterTurn)) /\
  decomposeMatrix2X3 (composeMatrix2X3 stretchedQuarterTurn) =
  stretchedQuarterTurn.
Proof.
  pose proof PI_RGT_0 as Hpi.
  apply (decompose_compose stretchedQuarterTurn); cbn; try reflexivity; lra.
Defined.

(** The flipped quarter turn composes to the matrix [(0,-1,-1,0,0,0)],
    which decomposes to a quarter turn the other way with a vertical
    flip. *)
Lemma flippedQuarterTurn_compose :
  composeMatrix2X3 flippedQuarterTurn = Mat 0 (-1) (-1) 0 0 0.
Proof.
  pose proof PI_RGT_0 as Hpi.
  rewrite compose_entries by (cbn; lra). cbn.
  rewrite cos_PI2, sin_PI2, tan_0. f_equal; ring.
Qed.

Lemma flippedQuarterTurn_decompose :
  decomposeMatrix2X3 (composeMatrix2X3 flippedQuarterTurn) =
  {| angle := - (PI / 2); scaleX := 1; scaleY := 1; skewX := 0; skewY := 0;
     translateX := 0; translateY := 0; flipX := false; flipY := true |}.
Proof.
  pose proof PI_RGT_0 as Hpi.
  rewrite flippedQuarterTurn_compose.
  assert (Hm : Mat 0 (-1) (-1) 0 0 0 =
               Mat (1 * cos (- (PI / 2))) (1 * sin (- (PI / 2)))
                   (cos (- (PI / 2)) * (1 * 0) - sin (- (PI / 2)) * (-1))
                   (sin (- (PI / 2)) * (1 * 0) + cos (- (PI / 2)) * (-1))
                   0 0).
  { rewrite cos_neg, sin_neg, cos_PI2, sin_PI2. f_equal; ring. }
  rewrite Hm, decompose_entries by lra.
  rewrite atan_0. replace (Rabs (-1)) with 1
    by (rewrite <- (Rabs_Ropp (-1)), Rabs_pos_eq; lra).
  unfold Rgtb. destruct (Rgt_dec (-1) 0); [lra | reflexivity].
Qed.

(** Two different options with the same matrix: no decomposition can give
    both back. *)
Lemma compose_not_injective :
  composeMatrix2X3 flippedQuarterTurn =
  composeMatrix2X3 backQuarterTurnFlippedY /\
  flipX flippedQuarterTurn <> flipX backQuarterTurnFlippedY.
Proof.
  pose proof PI_RGT_0 as Hpi. split; [| discriminate].
  rewrite flippedQuarterTurn_compose.
  rewrite compose_entries by (cbn; lra). cbn.
  rewrite cos_neg, sin_neg, cos_PI2, sin_PI2, tan_0. f_equal; ring.
Qed.

(** C1, as the claim has it, fails: [flippedQuarterTurn] has [skewY = 0],
    [scaleX = 1] and the angle [PI / 2], which is no multiple of [PI], and
    is not recovered: its [flipX] comes back [false] (and its angle
    [- PI / 2]). *)
Lemma decompose_compose_loses_flipX :
  skewY flippedQuarterTurn = 0 /\
  scaleX flippedQuarterTurn <> 0 /\
  (forall k : Z, angle flippedQuarterTurn <> IZR k * PI) /\
  ~ recovers flippedQuarterTurn
      (decomposeMatrix2X3 (composeMatrix2X3 flippedQuarterTurn)).
Proof.
  pose proof PI_RGT_0 as Hpi.
  split; [reflexivity | split; [cbn; lra | split]].
  - intros k E. cbn in E.
    assert (E2 : IZR (2 * k) = IZR 1) by (rewrite mult_IZR; nra).
    apply eq_IZR in E2. lia.
  - rewrite flippedQuarterTurn_decompose. unfold recovers. cbn.
    intros (_ & _ & _ & _ & _ & _ & Hflip & _). discriminate Hflip.
Qed.

End Decompose.

(** * Properties of collide *)

Section CollideAnyNumber.
Import Collide.
Context {N : Type} {num : Number N}.
Local Open Scope num_scope.

Lemma invoke_heap (c : Closure N) (quad : Quad) (q : Ref)
    (x1 y1 x2 y2 : N) (h : Heap N) :
  point quad = Some q -> q <> node c ->
  snd (invoke c quad x1 y1 x2 y2 h) = separate (node c) q h.
Proof.
  intros Hq Hne. unfold invoke. cbn [snd]. rewrite Hq.
  apply Nat.eqb_neq in Hne. rewrite Hne. reflexivity.
Qed.

(** The fields of the two nodes after a separation step that found them
    overlapping. *)
Lemma separate_moves (n q : Ref) (h : Heap N) :
  q <> n ->
  let dx := x (h n) - x (h q) in
  let dy := y (h n) - y (h q) in
  let l := num_sqrt (dx * dx + dy * dy) in
  let r := radius (h n) + radius (h q) in
  let l' := (l - r) / l * num_half in
  (l <? r) = true ->
  separate n q h n =
    mkNode (x (h n) - dx * l') (y (h n) - dy * l') (radius (h n)) /\
  separate n q h q =
    mkNode (x (h q) + dx * l') (y (h q) + dy * l') (radius (h q)).
Proof.
  intros Hne dx dy l r l' Hlt. unfold separate. fold dx dy l r. rewrite Hlt.
  fold l'. unfold set_x, set_y.
  assert (Hqn : Nat.eqb q n = false) by (apply Nat.eqb_neq; assumption).
  assert (Hnq : Nat.eqb n q = false)
    by (apply Nat.eqb_neq; intros E; apply Hne; symmetry; exact E).
  rewrite !Nat.eqb_refl, ?Hqn, ?Hnq. cbn.
  rewrite ?Nat.eqb_refl, ?Hqn, ?Hnq. cbn. split; reflexivity.
Qed.

(** C10.  The boolean a closure returns is computed from its arguments and
    from the bounds copied from [node] when [collide] ran on heap [h0]: it
    is the same on every later heap [h], [h'] and for every quad, so also
    after the closure's own earlier calls have moved the node. *)
Theorem prune_decision_is_captured (n : Ref) (h0 h h' : Heap N)
    (quad quad' : Quad) (x1 y1 x2 y2 a1 b1 a2 b2 : N) :
  let c := collide n h0 in
  let r := radius (h0 n) + num_16 in
  fst (invoke c quad x1 y1 x2 y2 h) =
    ((x1 >? x (h0 n) + r) || (x2 <? x (h0 n) - r) ||
     (y1 >? y (h0 n) + r) || (y2 <? y (h0 n) - r)) /\
  fst (invoke c quad' x1 y1 x2 y2 h') = fst (invoke c quad x1 y1 x2 y2 h) /\
  fst (invoke c quad' x1 y1 x2 y2 (snd (invoke c quad a1 b1 a2 b2 h))) =
    fst (invoke c quad' x1 y1 x2 y2 h).
Proof. cbn. repeat split. Qed.

End CollideAnyNumber.

Section CollideReal.
Import Collide CollideGeometry.
Local Open Scope R_scope.

Lemma Rltb_true (a b : R) : Rltb a b = true <-> a < b.
Proof. unfold Rltb. destruct (Rlt_dec a b); split; intros; congruence || tauto. Qed.

Lemma Rgtb_true (a b : R) : Rgtb a b = true <-> a > b.
Proof. unfold Rgtb. destruct (Rgt_dec a b); split; intros; congruence || tauto. Qed.

(** The test of line 36, on real numbers. *)
Lemma invoke_decision (c : Closure R) (quad : Quad) (x1 y1 x2 y2 : R)
    (h : Heap R) :
  fst (invoke c quad x1 y1 x2 y2 h) = true <->
  x1 > nx2 c \/ x2 < nx1 c \/ y1 > ny2 c \/ y2 < ny1 c.
Proof.
  unfold invoke. cbn.
  rewrite !orb_true_iff, !Rgtb_true, !Rltb_true. tauto.
Qed.

(** C3.  The closure returns [true] exactly when the query rectangle lies
    entirely outside the padded square of the node, as it was when
    [collide] ran.  Whenever it returns [true] the rectangle is outside;
    and a rectangle ([x1 <= x2], [y1 <= y2]) outside a padded square that
    is not empty ([radius + 16 >= 0]) makes it return [true].  For a node at
    the origin with radius [0] it returns [true] on every rectangle that
    begins beyond [x = 16]. *)
Theorem prune_iff_outside (n : Ref) (h0 h : Heap R) (quad : Quad)
    (x1 y1 x2 y2 : R) :
  (fst (invoke (collide n h0) quad x1 y1 x2 y2 h) = true ->
   outside (h0 n) x1 y1 x2 y2) /\
  (x1 <= x2 -> y1 <= y2 -> 0 <= radius (h0 n) + 16 ->
   (fst (invoke (collide n h0) quad x1 y1 x2 y2 h) = true <->
    outside (h0 n) x1 y1 x2 y2)) /\
  (h0 n = mkNode 0 0 0 -> 16 < x1 ->
   fst (invoke (collide n h0) quad x1 y1 x2 y2 h) = true).
Proof.
  assert (Hsound : fst (invoke (collide n h0) quad x1 y1 x2 y2 h) = true ->
                   outside (h0 n) x1 y1 x2 y2).
  { rewrite invoke_decision. cbn.
    unfold outside, in_rectangle, in_padded_square.
    intros Hsep px py [Hpx Hpy] [Hsx Hsy]. lra. }
  split; [exact Hsound |]. split.
  - intros Hx Hy Hr. split; [exact Hsound |].
    rewrite invoke_decision. cbn.
    unfold outside, in_rectangle, in_padded_square.
    set (r := radius (h0 n) + 16) in *.
    set (cx := x (h0 n)). set (cy := y (h0 n)).
    intros Hout.
    destruct (Rgt_dec x1 (cx + r)) as [|H1]; [tauto |].
    destruct (Rlt_dec x2 (cx - r)) as [|H2]; [tauto |].
    destruct (Rgt_dec y1 (cy + r)) as [|H3]; [tauto |].
    destruct (Rlt_dec y2 (cy - r)) as [|H4]; [tauto |].
    exfalso.
    apply (Hout (Rmax x1 (cx - r)) (Rmax y1 (cy - r))).
    + split; split; try apply Rmax_l; apply Rmax_lub; lra.
    + split; split; try apply Rmax_r; apply Rmax_lub; lra.
  - intros Hn Hx1. rewrite invoke_decision. cbn. rewrite Hn. cbn.
    left. lra.
Qed.

Lemma prune_iff_outside_witness :
  (fst (invoke (collide 0%nat originPoint) (mkQuad None) 17 0 18 1
          originPoint) = true <->
   outside (originPoint 0%nat) 17 0 18 1) /\
  fst (invoke (collide 0%nat originPoint) (mkQuad None) 17 0 18 1
         originPoint) = true.
Proof.
  destruct (prune_iff_outside 0%nat originPoint originPoint
              (mkQuad None) 17 0 18 1) as (_ & Hiff & Hpart).
  split.
  - apply Hiff; cbn; lra.
  - apply Hpart; [reflexivity | lra].
Defined.

End CollideReal.

Section Separation.
Import Collide CollideGeometry.
Local Open Scope R_scope.

(** The setting of one call that finds two distinct overlapping circles
    whose centres differ. *)
Variables (c : Closure R) (quad : Quad) (q : Ref) (x1 y1 x2 y2 : R)
          (h : Heap R).

Let n := node c.
Let dx := x (h n) - x (h q).
Let dy := y (h n) - y (h q).
Let l := sqrt (dx * dx + dy * dy).
Let r := radius (h n) + radius (h q).
Let k := (l - r) / l * (5 / 10).
Let h' := snd (invoke c quad x1 y1 x2 y2 h).

Hypothesis Hquad : point quad = Some q.
Hypothesis Hother : q <> node c.
Hypothesis Hoverlap : 0 < l < r.

Lemma l_square : l * l = dx * dx + dy * dy.
Proof. unfold l. apply sqrt_sqrt. nra. Qed.

Lemma moved_fields :
  h' n = mkNode (x (h n) - dx * k) (y (h n) - dy * k) (radius (h n)) /\
  h' q = mkNode (x (h q) + dx * k) (y (h q) + dy * k) (radius (h q)).
Proof.
  unfold h'. rewrite (invoke_heap c quad q x1 y1 x2 y2 h Hquad Hother).
  pose proof (separate_moves (node c) q h Hother) as H.
  cbv zeta in H.
  cbn [num_add num_sub num_mul num_div num_sqrt num_lt num_half RNumber]
    in H.
  apply H. apply Rltb_true. apply Hoverlap.
Qed.

Lemma moved_distance : distance (h' n) (h' q) = r.
Proof.
  destruct moved_fields as [En Eq]. rewrite En, Eq. unfold distance. cbn.
  pose proof l_square as Hl. destruct Hoverlap as [Hl0 Hlr].
  fold dx dy.
  replace (x (h n) - dx * k - (x (h q) + dx * k)) with (dx * (r / l))
    by (unfold k, dx; field; lra).
  replace (y (h n) - dy * k - (y (h q) + dy * k)) with (dy * (r / l))
    by (unfold k, dy; field; lra).
  apply sqrt_lem_1.
  - nra.
  - lra.
  - replace (dx * (r / l) * (dx * (r / l)) + dy * (r / l) * (dy * (r / l)))
      with ((dx * dx + dy * dy) * (r / l) * (r / l)) by ring.
    rewrite <- Hl. field. lra.
Qed.

Lemma moved_magnitude :
  sqrt (dx * k * (dx * k) + dy * k * (dy * k)) = (r - l) / 2.
Proof.
  pose proof l_square as Hl. destruct Hoverlap as [Hl0 Hlr].
  apply sqrt_lem_1.
  - nra.
  - lra.
  - replace (dx * k * (dx * k) + dy * k * (dy * k))
      with ((dx * dx + dy * dy) * k * k) by ring.
    rewrite <- Hl. unfold k. field. lra.
Qed.

(** C4.  When the quad holds another node and the centres are at a
    distance [0 < l < r], the call moves [node] by the centre-difference
    vector [(dx, dy)] scaled by [- k] and the other node by the same vector
    scaled by [k], where [k = (l - r) / l * .5]: the two displacements are
    opposite, each has length [(r - l) / 2], and the centres end up farther
    apart. *)
Theorem overlap_pushes_apart :
  (x (h' n) - x (h n) = - (dx * k) /\ y (h' n) - y (h n) = - (dy * k)) /\
  (x (h' q) - x (h q) = dx * k /\ y (h' q) - y (h q) = dy * k) /\
  sqrt ((x (h' n) - x (h n)) * (x (h' n) - x (h n)) +
        (y (h' n) - y (h n)) * (y (h' n) - y (h n))) = (r - l) / 2 /\
  sqrt ((x (h' q) - x (h q)) * (x (h' q) - x (h q)) +
        (y (h' q) - y (h q)) * (y (h' q) - y (h q))) = (r - l) / 2 /\
  distance (h n) (h q) < distance (h' n) (h' q).
Proof.
  pose proof moved_magnitude as Hmag. pose proof moved_distance as Hdist.
  destruct moved_fields as [En Eq].
  assert (Dn : x (h' n) - x (h n) = - (dx * k) /\
               y (h' n) - y (h n) = - (dy * k))
    by (rewrite En; cbn; split; ring).
  assert (Dq : x (h' q) - x (h q) = dx * k /\
               y (h' q) - y (h q) = dy * k)
    by (rewrite Eq; cbn; split; ring).
  split; [exact Dn |]. split; [exact Dq |].
  destruct Dn as [Dnx Dny], Dq as [Dqx Dqy].
  rewrite Dnx, Dny, Dqx, Dqy.
  replace (- (dx * k) * - (dx * k) + - (dy * k) * - (dy * k))
    with (dx * k * (dx * k) + dy * k * (dy * k)) by ring.
  repeat split; try exact Hmag.
  rewrite Hdist. change (distance (h n) (h q)) with l. apply Hoverlap.
Qed.

(** C9.  The same call leaves the two centres at distance exactly [r], the
    sum of the radii, and does not move their midpoint. *)
Theorem overlap_resolved_in_one_call :
  distance (h' n) (h' q) = r /\
  (x (h' n) + x (h' q)) / 2 = (x (h n) + x (h q)) / 2 /\
  (y (h' n) + y (h' q)) / 2 = (y (h n) + y (h q)) / 2.
Proof.
  split; [exact moved_distance |].
  destruct moved_fields as [En Eq]. rewrite En, Eq. cbn. split; field.
Qed.

End Separation.

Section SeparationExamples.
Import Collide CollideGeometry.
Local Open Scope R_scope.

Lemma sqrt_15 : sqrt ((0 - 15) * (0 - 15) + (0 - 0) * (0 - 0)) = 15.
Proof. apply sqrt_lem_1; lra. Qed.

Lemma sqrt_5 : sqrt ((0 - 3) * (0 - 3) + (0 - 4) * (0 - 4)) = 5.
Proof. apply sqrt_lem_1; lra. Qed.

(** The spec's pair: the circle at [(0, 0)] moves to [(-2.5, 0)] and the
    circle at [(15, 0)] to [(17.5, 0)]. *)
Lemma overlap_pushes_apart_witness :
  let h' := snd (invoke (collide 0%nat overlappingPair) (mkQuad (Some 1%nat))
                   0 0 0 0 overlappingPair) in
  (x (h' 0%nat) = - (5 / 2) /\ y (h' 0%nat) = 0) /\
  (x (h' 1%nat) = 35 / 2 /\ y (h' 1%nat) = 0) /\
  distance (overlappingPair 0%nat) (overlappingPair 1%nat) <
  distance (h' 0%nat) (h' 1%nat).
Proof.
  assert (Hl : 0 < sqrt ((0 - 15) * (0 - 15) + (0 - 0) * (0 - 0)) < 10 + 10)
    by (rewrite sqrt_15; lra).
  destruct (overlap_pushes_apart (collide 0%nat overlappingPair)
              (mkQuad (Some 1%nat)) 1%nat 0 0 0 0 overlappingPair
              eq_refl (fun E => O_S 0 (eq_sym E)) Hl)
    as ((Hnx & Hny) & (Hqx & Hqy) & _ & _ & Hd).
  cbv zeta. cbn in Hnx, Hny, Hqx, Hqy, Hd |- *.
  rewrite sqrt_15 in Hnx, Hny, Hqx, Hqy.
  repeat split; lra.
Defined.

Lemma overlap_resolved_in_one_call_witness :
  let h' := snd (invoke (collide 0%nat diagonalPair) (mkQuad (Some 1%nat))
                   0 0 0 0 diagonalPair) in
  distance (h' 0%nat) (h' 1%nat) = 4 + 4 /\
  (x (h' 0%nat) + x (h' 1%nat)) / 2 = (0 + 3) / 2 /\
  (y (h' 0%nat) + y (h' 1%nat)) / 2 = (0 + 4) / 2.
Proof.
  assert (Hl : 0 < sqrt ((0 - 3) * (0 - 3) + (0 - 4) * (0 - 4)) < 4 + 4)
    by (rewrite sqrt_5; lra).
  exact (overlap_resolved_in_one_call (collide 0%nat diagonalPair)
           (mkQuad (Some 1%nat)) 1%nat 0 0 0 0 diagonalPair
           eq_refl (fun E => O_S 0 (eq_sym E)) Hl).
Defined.

End SeparationExamples.

(** * collide in binary64: coincident centres *)

Section CollideBinary64.
Import Collide CollideFloat.
Local Open Scope float_scope.

(** In binary64 the spec's pair moves to [-2.5] and [17.5]. *)
Example overlappingPair_binary64 :
  let h' := snd (invoke (collide 0%nat overlappingPair) (mkQuad (Some 1%nat))
                   0 0 0 0 overlappingPair) in
  (x (h' 0%nat), y (h' 0%nat), x (h' 1%nat), y (h' 1%nat)) =
  (-2.5, 0, 17.5, 0).
Proof. vm_compute. reflexivity. Qed.

(** The call moves [node] from [x = 0] to [x = -2.5], yet the closure made
    before still answers from the old bounds ([nx2 = 26]): a rectangle that
    begins at [x = 25] is not pruned by it, and is pruned by a closure made
    after the move ([nx2 = 23.5]). *)
Example captured_bounds_binary64 :
  let c := collide 0%nat overlappingPair in
  let h' := snd (invoke c (mkQuad (Some 1%nat)) 0 0 0 0 overlappingPair) in
  fst (invoke c (mkQuad None) 25 0 30 1 h') = false /\
  fst (invoke (collide 0%nat h') (mkQuad None) 25 0 30 1 h') = true.
Proof. vm_compute. split; reflexivity. Qed.

(** The shape of a finite binary64 value. *)
Lemma Prim2SF_finite (a : float) :
  is_finite a = true ->
  (exists s, Prim2SF a = S754_zero s) \/
  (exists s m e, Prim2SF a = S754_finite s m e).
Proof.
  unfold is_finite, is_infinity, is_nan.
  rewrite !FloatAxioms.eqb_spec, abs_spec.
  change (Prim2SF infinity) with (S754_infinity false).
  destruct (Prim2SF a) as [s | s | | s m e]; eauto; try discriminate.
  destruct s; discriminate.
Qed.

(** [node.x - quad.point.x] when both are the same finite number. *)
Lemma float_sub_diag (a : float) : is_finite a = true -> a - a = 0.
Proof.
  intros Hfin. apply Prim2SF_inj. rewrite sub_spec.
  change (Prim2SF 0) with (S754_zero false).
  destruct (Prim2SF_finite a Hfin) as [[s E] | (s & m & e & E)]; rewrite E.
  - destruct s; reflexivity.
  - unfold SF64sub, SFsub. rewrite Z.min_id. unfold shl_align.
    rewrite Z.sub_diag. cbn [fst]. reflexivity.
Qed.

Lemma float_sub_nan (a : float) : a - nan = nan.
Proof.
  apply Prim2SF_inj. rewrite sub_spec. change (Prim2SF nan) with S754_nan.
  destruct (Prim2SF a) as [s | s | | s m e]; reflexivity.
Qed.

Lemma float_add_nan (a : float) : a + nan = nan.
Proof.
  apply Prim2SF_inj. rewrite add_spec. change (Prim2SF nan) with S754_nan.
  destruct (Prim2SF a) as [s | s | | s m e]; reflexivity.
Qed.

(** The separation ratio at [l = 0]: [(0 - r) / 0 * .5] is [-Infinity] for
    every [r > 0]. *)
Lemma float_ratio_at_zero (r : float) :
  (0 <? r) = true -> (0 - r) / 0 * 0.5 = neg_infinity.
Proof.
  rewrite ltb_spec. change (Prim2SF 0) with (S754_zero false). intros Hr.
  assert (E : (0 - r) / 0 = neg_infinity).
  { apply Prim2SF_inj. rewrite div_spec, sub_spec.
    change (Prim2SF 0) with (S754_zero false).
    change (Prim2SF neg_infinity) with (S754_infinity true).
    destruct (Prim2SF r) as [s | s | | s m e]; try discriminate;
      destruct s; try discriminate; reflexivity. }
  rewrite E. reflexivity.
Qed.

(** C2, as the claim has it, fails: two distinct circles of radius [10]
    stacked at the origin overlap, and one call stores NaN in [x] and [y]
    of both. *)
Lemma stacked_circles_become_nan :
  let h' := snd (invoke (collide 0%nat stackedAtOrigin) (mkQuad (Some 1%nat))
                   0 0 0 0 stackedAtOrigin) in
  is_nan (x (h' 0%nat)) = true /\ is_nan (y (h' 0%nat)) = true /\
  is_nan (x (h' 1%nat)) = true /\ is_nan (y (h' 1%nat)) = true.
Proof. vm_compute. repeat split. Qed.

(** C2, as the code has it.  When the quad holds another node with the same
    finite centre and the radii sum to more than zero, the distance [l] is
    [0], the ratio [(l - r) / l * .5] is [-Infinity], the products
    [x * l] and [y * l] are NaN, and the call stores NaN in [x] and [y] of
    both nodes; the radii are left as they were. *)
Theorem coincident_centres_become_nan (c : Closure float) (quad : Quad)
    (q : Ref) (x1 y1 x2 y2 : float) (h : Heap float) :
  point quad = Some q -> q <> node c ->
  x (h q) = x (h (node c)) -> y (h q) = y (h (node c)) ->
  is_finite (x (h (node c))) = true -> is_finite (y (h (node c))) = true ->
  (0 <? radius (h (node c)) + radius (h q)) = true ->
  let dx := x (h (node c)) - x (h q) in
  let dy := y (h (node c)) - y (h q) in
  let l := PrimFloat.sqrt (dx * dx + dy * dy) in
  let r := radius (h (node c)) + radius (h q) in
  let h' := snd (invoke c quad x1 y1 x2 y2 h) in
  l = 0 /\ (l - r) / l * 0.5 = neg_infinity /\
  h' (node c) = mkNode nan nan (radius (h (node c))) /\
  h' q = mkNode nan nan (radius (h q)).
Proof.
  intros Hquad Hother Hx Hy Hfx Hfy Hr dx dy l r h'.
  assert (Hdx : dx = 0) by (unfold dx; rewrite Hx; apply float_sub_diag, Hfx).
  assert (Hdy : dy = 0) by (unfold dy; rewrite Hy; apply float_sub_diag, Hfy).
  assert (Hl : l = 0) by (unfold l; rewrite Hdx, Hdy; reflexivity).
  assert (Hk : (l - r) / l * 0.5 = neg_infinity)
    by (rewrite Hl; apply float_ratio_at_zero, Hr).
  split; [exact Hl |]. split; [exact Hk |].
  unfold h'. rewrite (invoke_heap c quad q x1 y1 x2 y2 h Hquad Hother).
  pose proof (separate_moves (node c) q h Hother) as H.
  cbv zeta in H.
  cbn [num_add num_sub num_mul num_div num_sqrt num_lt num_half FloatNumber]
    in H.
  fold dx dy in H. fold l in H. fold r in H.
  rewrite Hk, Hdx in H. rewrite Hdy in H.
  change (0 * neg_infinity) with nan in H.
  rewrite !float_sub_nan, !float_add_nan in H.
  apply H. rewrite Hl. exact Hr.
Qed.

Lemma coincident_centres_become_nan_witness :
  let h' := snd (invoke (collide 0%nat stackedPair) (mkQuad (Some 1%nat))
                   0 0 0 0 stackedPair) in
  h' 0%nat = mkNode nan nan 1 /\ h' 1%nat = mkNode nan nan 2.
Proof.
  apply (coincident_centres_become_nan (collide 0%nat stackedPair)
           (mkQuad (Some 1%nat)) 1%nat 0 0 0 0 stackedPair);
    try reflexivity.
  exact (fun E => O_S 0 (eq_sym E)).
Defined.

End CollideBinary64.

(** * Further properties of Matrix2X3 *)

Section InverseAndProduct.
Import Matrix2X3.
Local Open Scope R_scope.

Lemma det_multiply (a b : Matrix2X3Array) :
  det (multiplyMatrix2X3 a b) = det a * det b.
Proof. destruct a, b. cbn. ring. Qed.

(** X1.  For a matrix with non-zero determinant, [invertMatrix2X3] gives a
    two-sided inverse for [multiplyMatrix2X3]. *)
Theorem invert_cancels (m : Matrix2X3Array) :
  det m <> 0 ->
  multiplyMatrix2X3 (invertMatrix2X3 m) m = getIdentityMatrix2X3 /\
  multiplyMatrix2X3 m (invertMatrix2X3 m) = getIdentityMatrix2X3.
Proof.
  destruct m as [t0 t1 t2 t3 t4 t5]. cbn. intros Hdet.
  split; unfold getIdentityMatrix2X3; f_equal; field; assumption.
Qed.

Lemma invert_cancels_witness :
  multiplyMatrix2X3 (invertMatrix2X3 (Mat 1 2 3 4 5 6)) (Mat 1 2 3 4 5 6) =
    getIdentityMatrix2X3 /\
  multiplyMatrix2X3 (Mat 1 2 3 4 5 6) (invertMatrix2X3 (Mat 1 2 3 4 5 6)) =
    getIdentityMatrix2X3.
Proof. apply (invert_cancels (Mat 1 2 3 4 5 6)). cbn. lra. Defined.

(** X2.  The inverse of a product is the product of the inverses in the
    opposite order, when both determinants are not zero. *)
Theorem invert_multiply (a b : Matrix2X3Array) :
  det a <> 0 -> det b <> 0 ->
  invertMatrix2X3 (multiplyMatrix2X3 a b) =
  multiplyMatrix2X3 (invertMatrix2X3 b) (invertMatrix2X3 a).
Proof.
  intros Ha Hb.
  assert (Hab : det (multiplyMatrix2X3 a b) <> 0).
  { rewrite det_multiply. apply Rmult_integral_contrapositive. tauto. }
  destruct a as [a0 a1 a2 a3 a4 a5], b as [b0 b1 b2 b3 b4 b5].
  cbn in *. f_equal; field; auto.
Qed.

Lemma invert_multiply_witness :
  invertMatrix2X3 (multiplyMatrix2X3 (Mat 2 0 0 1 5 0) (Mat 1 2 3 4 5 6)) =
  multiplyMatrix2X3 (invertMatrix2X3 (Mat 1 2 3 4 5 6))
    (invertMatrix2X3 (Mat 2 0 0 1 5 0)).
Proof.
  apply (invert_multiply (Mat 2 0 0 1 5 0) (Mat 1 2 3 4 5 6)); cbn; lra.
Defined.

(** X3.  With [ignoreOffset] the transform is the linear part alone: the
    full transform adds the offset [(t[4], t[5])] to it, and the difference
    of two transformed points is the linear transform of their
    difference. *)
Theorem transform_ignoreOffset (p q : Point2D) (t0 t1 t2 t3 t4 t5 : R) :
  let t := Mat t0 t1 t2 t3 t4 t5 in
  transformPoint2D p t false =
    Point2D_add (transformPoint2D p t true) (mkPoint t4 t5) /\
  transformPoint2D p t true = transformPoint2D p (Mat t0 t1 t2 t3 0 0) false /\
  Point2D_sub (transformPoint2D p t false) (transformPoint2D q t false) =
    transformPoint2D (Point2D_sub p q) t true.
Proof.
  destruct p, q. cbn. unfold Point2D_add, Point2D_sub. cbn.
  repeat split; f_equal; ring.
Qed.

End InverseAndProduct.

Section ComposeShape.
Import Matrix2X3.
Local Open Scope R_scope.

Lemma or_else_zero (v : R) : or_else v 0 = v.
Proof.
  unfold or_else. destruct (truthy v) eqn:E; [reflexivity |].
  apply truthy_false in E. congruence.
Qed.

Lemma invert_undoes_point (m : Matrix2X3Array) (p : Point2D) :
  det m <> 0 ->
  transformPoint2D (transformPoint2D p m false) (invertMatrix2X3 m) false = p.
Proof.
  destruct m as [t0 t1 t2 t3 t4 t5], p as [x y]. cbn. intros Hdet.
  f_equal; field; assumption.
Qed.

(** X4.  The composed matrix sends the origin to
    [(translateX, translateY)], whatever the other options are. *)
Theorem compose_moves_origin (o : TRANSFORM_OPTION) :
  transformPoint2D (mkPoint 0 0) (composeMatrix2X3 o) false =
  mkPoint (translateX o) (translateY o).
Proof.
  rewrite compose_product, calcRotate_formula, calcDimensions_formula.
  rewrite !or_else_zero. cbn. f_equal; ring.
Qed.

(** X5.  The determinant of the composed matrix is the product of the two
    signed scales; so the composed matrix can be inverted exactly when
    [scaleX] and [scaleY] are both not zero, and then
    [invertMatrix2X3] undoes it on every point. *)
Theorem compose_det (o : TRANSFORM_OPTION) :
  det (composeMatrix2X3 o) =
    (if flipX o then - scaleX o else scaleX o) *
    (if flipY o then - scaleY o else scaleY o) /\
  (det (composeMatrix2X3 o) <> 0 <-> scaleX o <> 0 /\ scaleY o <> 0) /\
  (scaleX o <> 0 -> scaleY o <> 0 ->
   forall p : Point2D,
     transformPoint2D (transformPoint2D p (composeMatrix2X3 o) false)
       (invertMatrix2X3 (composeMatrix2X3 o)) false = p).
Proof.
  assert (Hdet : det (composeMatrix2X3 o) =
                 (if flipX o then - scaleX o else scaleX o) *
                 (if flipY o then - scaleY o else scaleY o)).
  { rewrite compose_product, calcRotate_formula, calcDimensions_formula.
    rewrite !det_multiply. cbn.
    pose proof (sin2_cos2_mult (angle o)) as Hcs.
    replace (cos (angle o) * cos (angle o) - sin (angle o) * - sin (angle o))
      with (sin (angle o) * sin (angle o) + cos (angle o) * cos (angle o))
      by ring.
    rewrite Hcs. ring. }
  assert (Hiff : det (composeMatrix2X3 o) <> 0 <->
                 scaleX o <> 0 /\ scaleY o <> 0).
  { rewrite Hdet. destruct (flipX o), (flipY o); split.
    all: try (intros Hp; split; intros E; apply Hp; rewrite E; ring).
    all: intros [Hx Hy]; apply Rmult_integral_contrapositive; split; lra. }
  split; [exact Hdet |]. split; [exact Hiff |].
  intros Hx Hy p. apply invert_undoes_point. apply Hiff. tauto.
Qed.

Lemma compose_det_witness :
  transformPoint2D
    (transformPoint2D (mkPoint 1 1) (composeMatrix2X3 stretchedQuarterTurn)
       false)
    (invertMatrix2X3 (composeMatrix2X3 stretchedQuarterTurn)) false =
  mkPoint 1 1.
Proof.
  destruct (compose_det stretchedQuarterTurn) as (_ & _ & H).
  apply H; cbn; lra.
Defined.

End ComposeShape.

Section Rotations.
Import Matrix2X3.
Local Open Scope R_scope.

(** X6.  Rotation matrices multiply by adding their angles, and the
    inverse of a rotation matrix is the rotation matrix of the opposite
    angle; [calcRotateMatrix2X3] reads nothing but [angle]. *)
Theorem calcRotate_compose (o1 o2 o3 : TRANSFORM_OPTION) :
  (angle o3 = angle o1 + angle o2 ->
   multiplyMatrix2X3 (calcRotateMatrix2X3 o1) (calcRotateMatrix2X3 o2) =
   calcRotateMatrix2X3 o3) /\
  (angle o2 = - angle o1 ->
   invertMatrix2X3 (calcRotateMatrix2X3 o1) = calcRotateMatrix2X3 o2) /\
  (angle o1 = angle o2 -> calcRotateMatrix2X3 o1 = calcRotateMatrix2X3 o2).
Proof.
  rewrite !calcRotate_formula. split; [| split]; intros E; rewrite E.
  - rewrite cos_plus, sin_plus. cbn. f_equal; ring.
  - rewrite cos_neg, sin_neg. cbn.
    pose proof (sin2_cos2_mult (angle o1)) as Hcs.
    assert (Hd : cos (angle o1) * cos (angle o1) -
                 sin (angle o1) * - sin (angle o1) = 1) by lra.
    rewrite Hd. f_equal; field.
  - reflexivity.
Qed.

Lemma calcRotate_compose_witness :
  multiplyMatrix2X3 (calcRotateMatrix2X3 flippedQuarterTurn)
    (calcRotateMatrix2X3 backQuarterTurnFlippedY) =
  calcRotateMatrix2X3 getIdentityTransformOption /\
  invertMatrix2X3 (calcRotateMatrix2X3 flippedQuarterTurn) =
  calcRotateMatrix2X3 backQuarterTurnFlippedY.
Proof.
  split.
  - apply (proj1 (calcRotate_compose flippedQuarterTurn
                    backQuarterTurnFlippedY getIdentityTransformOption)).
    cbn. lra.
  - apply (proj1 (proj2 (calcRotate_compose flippedQuarterTurn
                           backQuarterTurnFlippedY
                           getIdentityTransformOption))).
    reflexivity.
Defined.

(** X7.  [rotateVector2D] is [transformPoint2D] by the rotation matrix of
    the same angle, without offset. *)
Theorem rotateVector_is_transform (v : Point2D) (o : TRANSFORM_OPTION) :
  rotateVector2D v (angle o) =
  transformPoint2D v (calcRotateMatrix2X3 o) true.
Proof.
  rewrite calcRotate_formula. destruct v. cbn.
  unfold rotateVector2D. cbn. f_equal; ring.
Qed.

Lemma rotateVector_add (v : Point2D) (a b : R) :
  rotateVector2D (rotateVector2D v a) b = rotateVector2D v (a + b).
Proof.
  destruct v. unfold rotateVector2D. cbn.
  rewrite cos_plus, sin_plus. f_equal; ring.
Qed.

Lemma rotateVector_zero (v : Point2D) : rotateVector2D v 0 = v.
Proof.
  destruct v. unfold rotateVector2D. cbn. rewrite cos_0, sin_0.
  f_equal; ring.
Qed.

(** X8.  Rotating a vector keeps its length, rotating by [a] and then by
    [b] is rotating by [a + b], and rotating back by [- a] gives the vector
    again. *)
Theorem rotateVector_rigid (v : Point2D) (a b : R) :
  px (rotateVector2D v a) * px (rotateVector2D v a) +
  py (rotateVector2D v a) * py (rotateVector2D v a) =
    px v * px v + py v * py v /\
  rotateVector2D (rotateVector2D v a) b = rotateVector2D v (a + b) /\
  rotateVector2D (rotateVector2D v a) (- a) = v.
Proof.
  split; [| split].
  - destruct v as [x y]. unfold rotateVector2D. cbn.
    pose proof (sin2_cos2_mult a) as Hcs.
    replace ((x * cos a - y * sin a) * (x * cos a - y * sin a) +
             (x * sin a + y * cos a) * (x * sin a + y * cos a))
      with ((x * x + y * y) * (sin a * sin a + cos a * cos a)) by ring.
    rewrite Hcs. ring.
  - apply rotateVector_add.
  - rewrite rotateVector_add. replace (a + - a) with 0 by ring.
    apply rotateVector_zero.
Qed.

(** X9.  [rotatePoint2D] leaves the origin of the rotation where it is,
    keeps the distance of every point to it, adds angles when applied
    twice about the same origin, and is undone by the opposite angle. *)
Theorem rotatePoint_rigid (p origin : Point2D) (a b : R) :
  rotatePoint2D origin origin a = origin /\
  (px (rotatePoint2D p origin a) - px origin) *
  (px (rotatePoint2D p origin a) - px origin) +
  (py (rotatePoint2D p origin a) - py origin) *
  (py (rotatePoint2D p origin a) - py origin) =
    (px p - px origin) * (px p - px origin) +
    (py p - py origin) * (py p - py origin) /\
  rotatePoint2D (rotatePoint2D p origin a) origin b =
    rotatePoint2D p origin (a + b) /\
  rotatePoint2D (rotatePoint2D p origin a) origin (- a) = p.
Proof.
  assert (Hsub : forall v, Point2D_sub (Point2D_add v origin) origin = v).
  { intros [x y]. unfold Point2D_sub, Point2D_add. cbn. f_equal; ring. }
  assert (Hadd : forall q, Point2D_add (Point2D_sub q origin) origin = q).
  { intros [x y]. unfold Point2D_sub, Point2D_add. cbn. f_equal; ring. }
  assert (Htwice : forall c d,
            rotatePoint2D (rotatePoint2D p origin c) origin d =
            rotatePoint2D p origin (c + d)).
  { intros c d. unfold rotatePoint2D. rewrite Hsub, rotateVector_add.
    reflexivity. }
  split; [| split; [| split]].
  - destruct origin as [x y]. unfold rotatePoint2D, rotateVector2D,
      Point2D_sub, Point2D_add. cbn. f_equal; ring.
  - destruct p as [x y], origin as [ox oy].
    unfold rotatePoint2D, rotateVector2D, Point2D_sub, Point2D_add. cbn.
    pose proof (sin2_cos2_mult a) as Hcs.
    set (u := x - ox). set (v := y - oy).
    replace ((u * cos a - v * sin a + ox - ox) *
             (u * cos a - v * sin a + ox - ox) +
             (u * sin a + v * cos a + oy - oy) *
             (u * sin a + v * cos a + oy - oy))
      with ((u * u + v * v) * (sin a * sin a + cos a * cos a)) by ring.
    rewrite Hcs. ring.
  - apply Htwice.
  - rewrite Htwice. replace (a + - a) with 0 by ring.
    unfold rotatePoint2D. rewrite rotateVector_zero. apply Hadd.
Qed.

End Rotations.

Section RecomposeMatrix.
Import Matrix2X3.
Local Open Scope R_scope.

Lemma cos_sub_PI (t : R) : cos (t - PI) = - cos t.
Proof. rewrite cos_minus, cos_PI, sin_PI. ring. Qed.

Lemma sin_sub_PI (t : R) : sin (t - PI) = - sin t.
Proof. rewrite sin_minus, cos_PI, sin_PI. ring. Qed.

(** The length of [(x, y)] from the slope [y / x]. *)
Lemma norm_from_slope (y x : R) :
  x <> 0 ->
  sqrt (x * x + y * y) = Rabs x * sqrt (1 + (y / x)²).
Proof.
  intros Hx.
  replace (x * x + y * y) with ((x * x) * (1 + (y / x)²))
    by (unfold Rsqr; field; assumption).
  rewrite sqrt_mult_alt by nra.
  f_equal. apply sqrt_Rsqr_abs.
Qed.

(** [Math.atan2(y, x)] is the polar angle of [(x, y)]. *)
Lemma atan2_cos_sin (y x : R) :
  x <> 0 \/ y <> 0 ->
  sqrt (x * x + y * y) * cos (atan2 y x) = x /\
  sqrt (x * x + y * y) * sin (atan2 y x) = y.
Proof.
  intros Hxy. unfold atan2.
  assert (Hu : 0 < sqrt (1 + (y / x)²)).
  { apply sqrt_lt_R0. pose proof (Rle_0_sqr (y / x)). lra. }
  destruct (Rlt_dec 0 x) as [Hx | Hx].
  - rewrite norm_from_slope by lra. rewrite cos_atan, sin_atan.
    rewrite Rabs_pos_eq by lra. split; field; repeat split; lra.
  - destruct (Rlt_dec x 0) as [Hx' | Hx'].
    + rewrite norm_from_slope by lra. rewrite Rabs_left by lra.
      destruct (Rle_dec 0 y) as [Hy | Hy].
      * rewrite neg_cos, neg_sin, cos_atan, sin_atan. split; field; repeat split; lra.
      * rewrite cos_sub_PI, sin_sub_PI, cos_atan, sin_atan.
        split; field; repeat split; lra.
    + assert (E : x = 0) by lra. subst x.
      replace (0 * 0 + y * y) with (y * y) by ring.
      destruct (Rlt_dec 0 y) as [Hy | Hy].
      * rewrite sqrt_square by lra. rewrite cos_PI2, sin_PI2. split; ring.
      * destruct (Rlt_dec y 0) as [Hy' | Hy']; [| exfalso; lra].
        replace (y * y) with (- y * - y) by ring.
        rewrite sqrt_square by lra.
        rewrite cos_neg, sin_neg, cos_PI2, sin_PI2. split; ring.
Qed.

(** X10.  The round trip the other way: every matrix whose entry [a[1]] is
    not zero is composed again from its decomposition. *)
Theorem compose_decompose (a0 a1 a2 a3 a4 a5 : R) :
  a1 <> 0 ->
  composeMatrix2X3 (decomposeMatrix2X3 (Mat a0 a1 a2 a3 a4 a5)) =
  Mat a0 a1 a2 a3 a4 a5.
Proof.
  intros Ha1.
  destruct (atan2_cos_sin a1 a0 (or_intror Ha1)) as [Hc Hs].
  set (rho := sqrt (a0 * a0 + a1 * a1)) in *.
  set (th := atan2 a1 a0) in *.
  assert (Hrho2 : rho * rho = a0 * a0 + a1 * a1)
    by (unfold rho; apply sqrt_sqrt; nra).
  assert (Hrho : 0 < rho) by (unfold rho; apply sqrt_lt_R0; nra).
  assert (Hsin : sin th <> 0) by (intros E; rewrite E in Hs; lra).
  assert (Hth : th <> 0) by (intros E; apply Hsin; rewrite E; apply sin_0).
  assert (HsX : a1 / sin th = rho) by (rewrite <- Hs; field; assumption).
  set (o := decomposeMatrix2X3 (Mat a0 a1 a2 a3 a4 a5)).
  assert (Hang : angle o = th) by reflexivity.
  assert (Hky : skewY o = 0) by reflexivity.
  assert (Hs1 : (if flipX o then - scaleX o else scaleX o) = rho).
  { unfold o. cbn. fold th. rewrite HsX, Rabs_pos_eq by lra.
    unfold Rgtb. destruct (Rgt_dec rho 0); [reflexivity | lra]. }
  assert (Hs2 : (if flipY o then - scaleY o else scaleY o) =
                (a0 * a3 - a2 * a1) / rho).
  { unfold o. cbn. fold th. rewrite HsX. unfold Rgtb.
    destruct (Rgt_dec ((a0 * a3 - a2 * a1) / rho) 0) as [Hp | Hn].
    - apply Rabs_pos_eq. lra.
    - rewrite Rabs_left1 by lra. ring. }
  assert (Ht : tan (skewX o) = (a0 * a2 + a1 * a3) / (rho * rho)).
  { unfold o. cbn. fold th.
    replace (a0 * (a0 * 1) + a1 * (a1 * 1)) with (rho * rho) by lra.
    unfold atan2. destruct (Rlt_dec 0 (rho * rho)) as [_ | Hn];
      [| exfalso; nra].
    apply tan_atan. }
  rewrite (compose_entries o); [| rewrite Hang; exact Hth | exact Hky].
  cbv zeta. rewrite Hs1, Hs2, Ht, Hang.
  assert (Hcos : cos th = a0 / rho) by (rewrite <- Hc; field; lra).
  assert (Hsn : sin th = a1 / rho) by (rewrite <- Hs; field; lra).
  rewrite Hcos, Hsn.
  f_equal; try reflexivity.
  - field; lra.
  - field; lra.
  - transitivity (a2 * (a0 * a0 + a1 * a1) / (rho * rho));
      [field; lra | rewrite <- Hrho2; field; lra].
  - transitivity (a3 * (a0 * a0 + a1 * a1) / (rho * rho));
      [field; lra | rewrite <- Hrho2; field; lra].
Qed.

Lemma compose_decompose_witness :
  composeMatrix2X3 (decomposeMatrix2X3 (Mat 3 4 1 2 5 6)) = Mat 3 4 1 2 5 6.
Proof. apply (compose_decompose 3 4 1 2 5 6). lra. Defined.

(** X11.  What the decomposition measures, for a matrix whose entry [a[1]]
    is not zero: [scaleX] is the length of the first column [(a[0], a[1])],
    [scaleX * scaleY] is the absolute value of the determinant, [flipY]
    tells that the determinant is not positive, and the translation is
    [(a[4], a[5])]. *)
Theorem decompose_measures (a0 a1 a2 a3 a4 a5 : R) :
  a1 <> 0 ->
  let o := decomposeMatrix2X3 (Mat a0 a1 a2 a3 a4 a5) in
  scaleX o = sqrt (a0 * a0 + a1 * a1) /\
  scaleX o * scaleY o = Rabs (det (Mat a0 a1 a2 a3 a4 a5)) /\
  (flipY o = true <-> det (Mat a0 a1 a2 a3 a4 a5) <= 0) /\
  translateX o = a4 /\ translateY o = a5.
Proof.
  intros Ha1 o.
  destruct (atan2_cos_sin a1 a0 (or_intror Ha1)) as [Hc Hs].
  set (rho := sqrt (a0 * a0 + a1 * a1)) in *.
  assert (Hrho : 0 < rho) by (unfold rho; apply sqrt_lt_R0; nra).
  assert (Hsin : sin (atan2 a1 a0) <> 0) by (intros E; rewrite E in Hs; lra).
  assert (HsX : a1 / sin (atan2 a1 a0) = rho)
    by (rewrite <- Hs at 1; field; assumption).
  unfold o. cbn. rewrite HsX, (Rabs_pos_eq rho) by lra.
  replace (a0 * a3 - a1 * a2) with (a0 * a3 - a2 * a1) by ring.
  set (d := a0 * a3 - a2 * a1).
  repeat split; try reflexivity.
  - unfold Rdiv. rewrite Rabs_mult, (Rabs_pos_eq (/ rho)).
    + field. lra.
    + left. apply Rinv_0_lt_compat. exact Hrho.
  - unfold Rgtb. destruct (Rgt_dec (d / rho) 0) as [Hp | Hn];
      [discriminate |]. intros _.
    destruct (Rle_dec d 0) as [|Hd]; [assumption | exfalso].
    apply Hn. apply Rdiv_lt_0_compat; lra.
  - intros Hd. unfold Rgtb.
    destruct (Rgt_dec (d / rho) 0) as [Hp | Hn]; [exfalso | reflexivity].
    assert (d / rho <= 0); [| lra].
    unfold Rdiv. assert (0 < / rho) by (apply Rinv_0_lt_compat; exact Hrho).
    nra.
Qed.

Lemma decompose_measures_witness :
  scaleX (decomposeMatrix2X3 (Mat 3 4 1 2 5 6)) = sqrt (3 * 3 + 4 * 4).
Proof.
  destruct (decompose_measures 3 4 1 2 5 6) as [H _]; [lra | exact H].
Defined.

End RecomposeMatrix.

(** * makeBoundingBoxFromPoints and sizeAfterTransform *)

Section BoundingBoxes.
Import Matrix2X3.
Local Open Scope R_scope.
Local Open Scope list_scope.

Lemma array_set_middle (done rest : list Point2D) (p v : Point2D) :
  array_set (done ++ p :: rest) (length done) v = done ++ v :: rest.
Proof.
  induction done as [| d done IH]; cbn; [reflexivity |].
  rewrite IH. reflexivity.
Qed.

Lemma nth_error_middle (done rest : list Point2D) (p : Point2D) :
  nth_error (done ++ p :: rest) (length done) = Some p.
Proof. induction done as [| d done IH]; cbn; [reflexivity | exact IH]. Qed.

(** The loop replaces the points from index [i] on, one by one, and leaves
    those before [i]. *)
Lemma transformLoop_map (t : Matrix2X3Array) (rest done : list Point2D) :
  transformLoop t (length rest) (length done) (done ++ rest) =
  done ++ map (fun p => transformPoint2D p t false) rest.
Proof.
  revert done. induction rest as [| p rest IH]; intros done; cbn.
  - reflexivity.
  - rewrite nth_error_middle, array_set_middle.
    replace (S (length done))
      with (length (done ++ transformPoint2D p t false :: nil))
      by (rewrite length_app; cbn; lia).
    replace (done ++ transformPoint2D p t false :: rest)
      with ((done ++ transformPoint2D p t false :: nil) ++ rest)
      by (rewrite <- app_assoc; reflexivity).
    rewrite IH, <- app_assoc. reflexivity.
Qed.

(** X12.  The call overwrites the array: afterwards it holds the
    transformed points, in the same order, and the box returned is the box
    of those; without a transform the array is left as it was. *)
Theorem boundingBox_overwrites_points (points : list Point2D)
    (t : Matrix2X3Array) :
  let moved := map (fun p => transformPoint2D p t false) points in
  fst (makeBoundingBoxFromPoints points (Some t)) = moved /\
  snd (makeBoundingBoxFromPoints points (Some t)) =
    snd (makeBoundingBoxFromPoints moved None) /\
  fst (makeBoundingBoxFromPoints points None) = points.
Proof.
  pose proof (transformLoop_map t points nil) as H. cbn in H.
  unfold makeBoundingBoxFromPoints. cbn. rewrite H. repeat split.
Qed.

Lemma fold_min_le (vs : list R) (v x : R) :
  In x (v :: vs) -> fold_left Rmin vs v <= x.
Proof.
  revert v x. induction vs as [| w vs IH]; intros v x Hin; cbn in *.
  - destruct Hin as [E | []]. lra.
  - destruct Hin as [E | [E | Hin]].
    + apply Rle_trans with (Rmin v w).
      * apply IH. left. reflexivity.
      * rewrite <- E. apply Rmin_l.
    + apply Rle_trans with (Rmin v w).
      * apply IH. left. reflexivity.
      * rewrite <- E. apply Rmin_r.
    + apply IH. right. exact Hin.
Qed.

Lemma fold_min_in (vs : list R) (v : R) : In (fold_left Rmin vs v) (v :: vs).
Proof.
  revert v. induction vs as [| w vs IH]; intros v; cbn.
  - left. reflexivity.
  - destruct (IH (Rmin v w)) as [E | Hin].
    + rewrite <- E. unfold Rmin. destruct (Rle_dec v w); auto.
    + right. right. exact Hin.
Qed.

Lemma fold_max_ge (vs : list R) (v x : R) :
  In x (v :: vs) -> x <= fold_left Rmax vs v.
Proof.
  revert v x. induction vs as [| w vs IH]; intros v x Hin; cbn in *.
  - destruct Hin as [E | []]. lra.
  - destruct Hin as [E | [E | Hin]].
    + apply Rle_trans with (Rmax v w).
      * rewrite <- E. apply Rmax_l.
      * apply IH. left. reflexivity.
    + apply Rle_trans with (Rmax v w).
      * rewrite <- E. apply Rmax_r.
      * apply IH. left. reflexivity.
    + apply IH. right. exact Hin.
Qed.

Lemma fold_max_in (vs : list R) (v : R) : In (fold_left Rmax vs v) (v :: vs).
Proof.
  revert v. induction vs as [| w vs IH]; intros v; cbn.
  - left. reflexivity.
  - destruct (IH (Rmax v w)) as [E | Hin].
    + rewrite <- E. unfold Rmax. destruct (Rle_dec v w); auto.
    + right. right. exact Hin.
Qed.

(** The box of a non-empty array, without transform, in real numbers. *)
Lemma box_of_nonempty (p : Point2D) (ps : list Point2D) :
  snd (makeBoundingBoxFromPoints (p :: ps) None) =
  mkBox (Finite (fold_left Rmin (map px ps) (px p)))
        (Finite (fold_left Rmin (map py ps) (py p)))
        (Finite (fold_left Rmax (map px ps) (px p) -
                 fold_left Rmin (map px ps) (px p)))
        (Finite (fold_left Rmax (map py ps) (py p) -
                 fold_left Rmin (map py ps) (py p))).
Proof. reflexivity. Qed.

Lemma box_transform_first (points : list Point2D) (t : Matrix2X3Array) :
  makeBoundingBoxFromPoints points (Some t) =
  makeBoundingBoxFromPoints
    (map (fun p => transformPoint2D p t false) points) None.
Proof.
  pose proof (transformLoop_map t points nil) as H. cbn in H.
  unfold makeBoundingBoxFromPoints. rewrite H. reflexivity.
Qed.

Lemma box_encloses_plain (p : Point2D) (ps : list Point2D) :
  let result := makeBoundingBoxFromPoints (p :: ps) None in
  exists l t w h : R,
    snd result = mkBox (Finite l) (Finite t) (Finite w) (Finite h) /\
    0 <= w /\ 0 <= h /\
    (forall q, In q (fst result) ->
       l <= px q <= l + w /\ t <= py q <= t + h) /\
    (exists q, In q (fst result) /\ px q = l) /\
    (exists q, In q (fst result) /\ px q = l + w) /\
    (exists q, In q (fst result) /\ py q = t) /\
    (exists q, In q (fst result) /\ py q = t + h).
Proof.
  intros result. unfold result. rewrite box_of_nonempty.
  change (fst (makeBoundingBoxFromPoints (p :: ps) None)) with (p :: ps).
  set (l := fold_left Rmin (map px ps) (px p)).
  set (t := fold_left Rmin (map py ps) (py p)).
  set (r := fold_left Rmax (map px ps) (px p)).
  set (b := fold_left Rmax (map py ps) (py p)).
  assert (Hbound : forall q, In q (p :: ps) ->
            l <= px q <= r /\ t <= py q <= b).
  { intros q Hq.
    assert (Hx : In (px q) (px p :: map px ps))
      by (apply (in_map px (p :: ps)); exact Hq).
    assert (Hy : In (py q) (py p :: map py ps))
      by (apply (in_map py (p :: ps)); exact Hq).
    repeat split.
    - apply fold_min_le, Hx.
    - apply fold_max_ge, Hx.
    - apply fold_min_le, Hy.
    - apply fold_max_ge, Hy. }
  assert (Hattained : forall (f : Point2D -> R) (m : R),
            In m (f p :: map f ps) -> exists q, In q (p :: ps) /\ f q = m).
  { intros f m Hm. apply (in_map_iff f (p :: ps) m) in Hm.
    destruct Hm as (q & E & Hq). exists q. split; assumption. }
  destruct (Hbound p (or_introl eq_refl)) as [Hlr Htb].
  exists l, t, (r - l), (b - t).
  split; [reflexivity |]. split; [lra |]. split; [lra |]. split.
  - intros q Hq. destruct (Hbound q Hq). lra.
  - repeat split.
    + apply Hattained, fold_min_in.
    + replace (l + (r - l)) with r by ring. apply Hattained, fold_max_in.
    + apply Hattained, fold_min_in.
    + replace (t + (b - t)) with b by ring. apply Hattained, fold_max_in.
Qed.

(** X13.  For an array that is not empty the box is made of four real
    numbers, its width and height are not negative, every point the array
    holds after the call lies in it, and each of its four sides passes
    through one of these points. *)
Theorem boundingBox_encloses (points : list Point2D)
    (transform : option Matrix2X3Array) :
  points <> nil ->
  let result := makeBoundingBoxFromPoints points transform in
  exists l t w h : R,
    snd result = mkBox (Finite l) (Finite t) (Finite w) (Finite h) /\
    0 <= w /\ 0 <= h /\
    (forall q, In q (fst result) ->
       l <= px q <= l + w /\ t <= py q <= t + h) /\
    (exists q, In q (fst result) /\ px q = l) /\
    (exists q, In q (fst result) /\ px q = l + w) /\
    (exists q, In q (fst result) /\ py q = t) /\
    (exists q, In q (fst result) /\ py q = t + h).
Proof.
  intros Hne. destruct points as [| p ps]; [contradiction |].
  destruct transform as [t |].
  - cbv zeta. rewrite box_transform_first. cbn [map].
    apply box_encloses_plain.
  - apply box_encloses_plain.
Qed.

Lemma boundingBox_encloses_witness :
  exists l t w h : R,
    snd (makeBoundingBoxFromPoints
           (mkPoint 1 1 :: mkPoint 3 0 :: nil) (Some (Mat 2 0 0 1 5 0))) =
    mkBox (Finite l) (Finite t) (Finite w) (Finite h) /\ 0 <= w /\ 0 <= h.
Proof.
  destruct (boundingBox_encloses (mkPoint 1 1 :: mkPoint 3 0 :: nil)
              (Some (Mat 2 0 0 1 5 0)))
    as (l & t & w & h & E & Hw & Hh & _); [discriminate |].
  exists l, t, w, h. repeat split; assumption.
Defined.

(** X14.  The degenerate arrays.  With no point the box is
    [left = top = Infinity] and [width = height = -Infinity]; with one
    point it is that point, transformed, with [width = height = 0]. *)
Theorem boundingBox_degenerate (p : Point2D) (t : Matrix2X3Array)
    (transform : option Matrix2X3Array) :
  makeBoundingBoxFromPoints nil transform =
    (nil, mkBox Infinity Infinity NegInfinity NegInfinity) /\
  makeBoundingBoxFromPoints (p :: nil) None =
    (p :: nil, mkBox (Finite (px p)) (Finite (py p)) (Finite 0) (Finite 0)) /\
  makeBoundingBoxFromPoints (p :: nil) (Some t) =
    (transformPoint2D p t false :: nil,
     mkBox (Finite (px (transformPoint2D p t false)))
           (Finite (py (transformPoint2D p t false)))
           (Finite 0) (Finite 0)).
Proof.
  assert (Hone : forall q, makeBoundingBoxFromPoints (q :: nil) None =
            (q :: nil, mkBox (Finite (px q)) (Finite (py q))
                         (Finite 0) (Finite 0))).
  { intros q. unfold makeBoundingBoxFromPoints. cbn.
    repeat f_equal; ring. }
  split; [| split].
  - destruct transform; reflexivity.
  - apply Hone.
  - rewrite box_transform_first. apply Hone.
Qed.

(** X15.  The box depends on which points the array holds, not on their
    order or on repetitions. *)
Theorem boundingBox_of_same_points (points points' : list Point2D)
    (transform : option Matrix2X3Array) :
  (forall q, In q points <-> In q points') ->
  snd (makeBoundingBoxFromPoints points transform) =
  snd (makeBoundingBoxFromPoints points' transform).
Proof.
  assert (Hplain : forall ps ps' : list Point2D,
            (forall q, In q ps <-> In q ps') ->
            snd (makeBoundingBoxFromPoints ps None) =
            snd (makeBoundingBoxFromPoints ps' None)).
  { intros ps ps' Hsame.
    destruct ps as [| p ps], ps' as [| p' ps'].
    - reflexivity.
    - exfalso. apply (proj2 (Hsame p')). left. reflexivity.
    - exfalso. apply (proj1 (Hsame p)). left. reflexivity.
    - rewrite !box_of_nonempty.
      assert (Hmap : forall (f : Point2D -> R) m,
                In m (f p :: map f ps) <-> In m (f p' :: map f ps')).
      { intros f m.
        rewrite (in_map_iff f (p :: ps) m), (in_map_iff f (p' :: ps') m).
        split; intros (q & E & Hq); exists q; split; try exact E;
          apply Hsame; exact Hq. }
      assert (Hmin : forall f : Point2D -> R,
                fold_left Rmin (map f ps) (f p) =
                fold_left Rmin (map f ps') (f p')).
      { intros f. apply Rle_antisym; apply fold_min_le.
        - apply Hmap, fold_min_in.
        - apply Hmap, fold_min_in. }
      assert (Hmax : forall f : Point2D -> R,
                fold_left Rmax (map f ps) (f p) =
                fold_left Rmax (map f ps') (f p')).
      { intros f. apply Rle_antisym; apply fold_max_ge.
        - apply Hmap, fold_max_in.
        - apply Hmap, fold_max_in. }
      rewrite (Hmin px), (Hmin py), (Hmax px), (Hmax py). reflexivity. }
  intros Hsame. destruct transform as [t |].
  - rewrite !box_transform_first. apply Hplain. intros q.
    rewrite !in_map_iff.
    split; intros (q0 & E & Hq); exists q0; split; try exact E;
      apply Hsame; exact Hq.
  - apply Hplain, Hsame.
Qed.

Lemma boundingBox_of_same_points_witness :
  snd (makeBoundingBoxFromPoints
         (mkPoint 1 1 :: mkPoint 3 0 :: nil) None) =
  snd (makeBoundingBoxFromPoints
         (mkPoint 3 0 :: mkPoint 1 1 :: mkPoint 3 0 :: nil) None).
Proof.
  apply (boundingBox_of_same_points
           (mkPoint 1 1 :: mkPoint 3 0 :: nil)
           (mkPoint 3 0 :: mkPoint 1 1 :: mkPoint 3 0 :: nil) None).
  intros q. cbn. tauto.
Defined.

(** The spread of the four values [c -+ u -+ v]. *)
Lemma spread_of_corners (c u v : R) :
  Rmax (Rmax (Rmax (c - u - v) (c + u - v)) (c - u + v)) (c + u + v) -
  Rmin (Rmin (Rmin (c - u - v) (c + u - v)) (c - u + v)) (c + u + v) =
  2 * (Rabs u + Rabs v).
Proof.
  unfold Rmax, Rmin, Rabs.
  repeat match goal with
         | |- context [Rle_dec ?a ?b] => destruct (Rle_dec a b)
         | H : context [Rle_dec ?a ?b] |- _ => destruct (Rle_dec a b)
         | |- context [Rcase_abs ?a] => destruct (Rcase_abs a)
         end; lra.
Qed.

Lemma Rabs_double (a w : R) : 2 * Rabs (a * (w / 2)) = Rabs (a * w).
Proof.
  replace (a * w) with (2 * (a * (w / 2))) by field.
  rewrite (Rabs_mult 2), (Rabs_pos_eq 2) by lra. reflexivity.
Qed.

(** The size of the box of a centred [width] by [height] rectangle under
    the dimensions matrix, from the entries of that matrix. *)
Lemma size_from_entries (w h : R) (o : TRANSFORM_OPTION)
    (a0 a1 a2 a3 a4 a5 : R) :
  calcDimensionsMatrix2X3 o = Mat a0 a1 a2 a3 a4 a5 ->
  sizeAfterTransform w h o =
  mkSize (Finite (Rabs (a0 * w) + Rabs (a2 * h)))
         (Finite (Rabs (a1 * w) + Rabs (a3 * h))).
Proof.
  intros E. unfold sizeAfterTransform. rewrite E.
  unfold makeBoundingBoxFromPoints. cbn.
  f_equal; f_equal.
  - rewrite <- (Rabs_double a0 w), <- (Rabs_double a2 h).
    rewrite <- Rmult_plus_distr_l.
    rewrite <- (spread_of_corners a4 (a0 * (w / 2)) (a2 * (h / 2))).
    f_equal; repeat (f_equal; try ring).
  - rewrite <- (Rabs_double a1 w), <- (Rabs_double a3 h).
    rewrite <- Rmult_plus_distr_l.
    rewrite <- (spread_of_corners a5 (a1 * (w / 2)) (a3 * (h / 2))).
    f_equal; repeat (f_equal; try ring).
Qed.

(** X16.  With [skewY = 0], the box that contains the transformed
    [width] by [height] rectangle is [|scaleX * width| +
    |scaleX * tan(skewX) * height|] wide and [|scaleY * height|] high: it
    does not depend on the angle, the translation or the flips, nor on the
    signs of the scales and of the sides. *)
Theorem sizeAfterTransform_formula (w h : R) (o : TRANSFORM_OPTION) :
  skewY o = 0 ->
  sizeAfterTransform w h o =
  mkSize (Finite (Rabs (scaleX o * w) +
                  Rabs (scaleX o * tan (skewX o) * h)))
         (Finite (Rabs (scaleY o * h))).
Proof.
  intros Hky.
  set (s1 := if flipX o then - scaleX o else scaleX o).
  set (s2 := if flipY o then - scaleY o else scaleY o).
  assert (E : calcDimensionsMatrix2X3 o =
              Mat s1 0 (s1 * tan (skewX o)) s2 0 0).
  { rewrite calcDimensions_formula, Hky, tan_0. cbn. fold s1 s2.
    f_equal; ring. }
  rewrite (size_from_entries w h o _ _ _ _ _ _ E).
  assert (H1 : forall v, Rabs (s1 * v) = Rabs (scaleX o * v)).
  { intros v. unfold s1. destruct (flipX o); [| reflexivity].
    replace (- scaleX o * v) with (- (scaleX o * v)) by ring.
    apply Rabs_Ropp. }
  assert (H2 : forall v, Rabs (s2 * v) = Rabs (scaleY o * v)).
  { intros v. unfold s2. destruct (flipY o); [| reflexivity].
    replace (- scaleY o * v) with (- (scaleY o * v)) by ring.
    apply Rabs_Ropp. }
  rewrite (Rmult_assoc s1), !H1, H2.
  replace (0 * w) with 0 by ring. rewrite Rabs_R0, Rplus_0_l.
  rewrite <- Rmult_assoc. reflexivity.
Qed.

Lemma sizeAfterTransform_formula_witness :
  sizeAfterTransform 10 4 stretchedQuarterTurn =
  mkSize (Finite (Rabs (2 * 10) + Rabs (2 * tan 0 * 4)))
         (Finite (Rabs (3 * 4))).
Proof.
  apply (sizeAfterTransform_formula 10 4 stretchedQuarterTurn). reflexivity.
Defined.

End BoundingBoxes.

(** * Further properties of collide *)

Section CollideFrame.
Import Collide.
Context {N : Type} {num : Number N}.
Local Open Scope num_scope.

Lemma set_x_radius (h : Heap N) (o p : Ref) (v : N) :
  radius (set_x h o v p) = radius (h p).
Proof.
  unfold set_x. destruct (Nat.eqb p o) eqn:E; [| reflexivity].
  apply Nat.eqb_eq in E. subst p. reflexivity.
Qed.

Lemma set_y_radius (h : Heap N) (o p : Ref) (v : N) :
  radius (set_y h o v p) = radius (h p).
Proof.
  unfold set_y. destruct (Nat.eqb p o) eqn:E; [| reflexivity].
  apply Nat.eqb_eq in E. subst p. reflexivity.
Qed.

Lemma set_x_other (h : Heap N) (o p : Ref) (v : N) :
  p <> o -> set_x h o v p = h p.
Proof.
  intros Hne. unfold set_x. apply Nat.eqb_neq in Hne. rewrite Hne.
  reflexivity.
Qed.

Lemma set_y_other (h : Heap N) (o p : Ref) (v : N) :
  p <> o -> set_y h o v p = h p.
Proof.
  intros Hne. unfold set_y. apply Nat.eqb_neq in Hne. rewrite Hne.
  reflexivity.
Qed.

Lemma separate_radius (n q : Ref) (h : Heap N) (p : Ref) :
  radius (separate n q h p) = radius (h p).
Proof.
  unfold separate.
  match goal with |- context [if ?b then _ else _] => destruct b end;
    [| reflexivity].
  cbv zeta.
  rewrite set_y_radius, set_x_radius, set_y_radius, set_x_radius.
  reflexivity.
Qed.

Lemma separate_other (n q : Ref) (h : Heap N) (p : Ref) :
  p <> n -> p <> q -> separate n q h p = h p.
Proof.
  intros Hn Hq. unfold separate.
  match goal with |- context [if ?b then _ else _] => destruct b end;
    [| reflexivity].
  cbv zeta.
  rewrite set_y_other, set_x_other, set_y_other, set_x_other by assumption.
  reflexivity.
Qed.

(** X17.  What a call never does, for real numbers and binary64 alike: it
    never changes a radius, it never touches a node other than [node] and
    [quad.point], and it changes nothing at all when the quad holds no
    point, holds [node] itself, or holds a node for which the test
    [l < r] fails. *)
Theorem invoke_frame (c : Closure N) (quad : Quad) (x1 y1 x2 y2 : N)
    (h : Heap N) :
  let h' := snd (invoke c quad x1 y1 x2 y2 h) in
  (forall p, radius (h' p) = radius (h p)) /\
  (forall p, p <> node c -> point quad <> Some p -> h' p = h p) /\
  (point quad = None -> h' = h) /\
  (point quad = Some (node c) -> h' = h) /\
  (forall q,
     point quad = Some q ->
     let dx := x (h (node c)) - x (h q) in
     let dy := y (h (node c)) - y (h q) in
     (num_sqrt (dx * dx + dy * dy) <? radius (h (node c)) + radius (h q))
       = false ->
     h' = h).
Proof.
  unfold invoke. cbn [snd]. cbv zeta.
  split; [| split; [| split; [| split]]].
  - intros p. destruct (point quad) as [q |]; [| reflexivity].
    destruct (negb (Nat.eqb q (node c))); [| reflexivity].
    apply separate_radius.
  - intros p Hn Hq. destruct (point quad) as [q |]; [| reflexivity].
    destruct (negb (Nat.eqb q (node c))); [| reflexivity].
    apply separate_other; [exact Hn |]. intros E. apply Hq. rewrite E.
    reflexivity.
  - intros E. rewrite E. reflexivity.
  - intros E. rewrite E, Nat.eqb_refl. reflexivity.
  - intros q E Htest. rewrite E.
    destruct (negb (Nat.eqb q (node c))); [| reflexivity].
    unfold separate. rewrite Htest. reflexivity.
Qed.

End CollideFrame.

Section CollideFrameExample.
Import Collide.

Lemma invoke_frame_witness :
  snd (invoke (collide 0%nat CollideFloat.stackedAtOrigin)
         (mkQuad (Some 0%nat)) 0%float 0%float 0%float 0%float
         CollideFloat.stackedAtOrigin) =
  CollideFloat.stackedAtOrigin.
Proof.
  destruct (invoke_frame (collide 0%nat CollideFloat.stackedAtOrigin)
              (mkQuad (Some 0%nat)) 0%float 0%float 0%float 0%float
              CollideFloat.stackedAtOrigin) as (_ & _ & _ & Hself & _).
  apply Hself. reflexivity.
Defined.

End CollideFrameExample.

Section SeparationSettles.
Import Collide CollideGeometry.
Local Open Scope R_scope.

Variables (c : Closure R) (quad : Quad) (q : Ref) (x1 y1 x2 y2 : R)
          (h : Heap R).

Let n := node c.
Let dx := x (h n) - x (h q).
Let dy := y (h n) - y (h q).
Let l := sqrt (dx * dx + dy * dy).
Let r := radius (h n) + radius (h q).
Let h' := snd (invoke c quad x1 y1 x2 y2 h).

Hypothesis Hquad : point quad = Some q.
Hypothesis Hother : q <> node c.
Hypothesis Hoverlap : 0 < l < r.

(** X18.  In exact arithmetic the call keeps the direction from one centre
    to the other (the centre difference is stretched by [r / l], the
    circles do not pass through each other), and a second call with the
    same quad changes nothing, whatever its rectangle. *)
Theorem overlap_settles (a1 b1 a2 b2 : R) :
  x (h' n) - x (h' q) = dx * (r / l) /\
  y (h' n) - y (h' q) = dy * (r / l) /\
  snd (invoke c quad a1 b1 a2 b2 h') = h'.
Proof.
  destruct (moved_fields c quad q x1 y1 x2 y2 h Hquad Hother Hoverlap)
    as [En Eq].
  pose proof (moved_distance c quad q x1 y1 x2 y2 h Hquad Hother Hoverlap)
    as Hdist.
  fold n dx dy l r h' in En, Eq, Hdist.
  destruct Hoverlap as [Hl0 Hlr].
  split; [| split].
  - rewrite En, Eq. cbn. clearbody l r. unfold dx. field. lra.
  - rewrite En, Eq. cbn. clearbody l r. unfold dy. field. lra.
  - rewrite (invoke_heap c quad q a1 b1 a2 b2 h' Hquad Hother).
    fold n. unfold separate.
    cbn [num_add num_sub num_mul num_div num_sqrt num_lt num_half RNumber].
    unfold distance in Hdist. rewrite Hdist.
    assert (Hr : radius (h' n) + radius (h' q) = r).
    { rewrite En, Eq. reflexivity. }
    rewrite Hr.
    assert (Hno : Rltb r r = false).
    { unfold Rltb. destruct (Rlt_dec r r); [lra | reflexivity]. }
    rewrite Hno. reflexivity.
Qed.

End SeparationSettles.

Section CollideRealMore.
Import Collide CollideGeometry.
Local Open Scope R_scope.

Lemma overlap_settles_witness :
  let c := collide 0%nat diagonalPair in
  let h' := snd (invoke c (mkQuad (Some 1%nat)) 0 0 0 0 diagonalPair) in
  snd (invoke c (mkQuad (Some 1%nat)) 0 0 1 1 h') = h'.
Proof.
  assert (Hl : 0 < sqrt ((0 - 3) * (0 - 3) + (0 - 4) * (0 - 4)) < 4 + 4)
    by (rewrite sqrt_5; lra).
  exact (proj2 (proj2 (overlap_settles (collide 0%nat diagonalPair)
                         (mkQuad (Some 1%nat)) 1%nat 0 0 0 0 diagonalPair
                         eq_refl (fun E => O_S 0 (eq_sym E)) Hl 0 0 1 1))).
Defined.

(** X19.  The two circles play the same part: taking the other one as
    [node] moves both to the same places. *)
Theorem separate_symmetric (n q : Ref) (h : Heap R) (p : Ref) :
  n <> q -> separate n q h p = separate q n h p.
Proof.
  intros Hne.
  assert (Hne' : q <> n) by (intros E; apply Hne; symmetry; exact E).
  set (dx := x (h n) - x (h q)). set (dy := y (h n) - y (h q)).
  set (l := sqrt (dx * dx + dy * dy)).
  set (r := radius (h n) + radius (h q)).
  assert (Hl : sqrt ((x (h q) - x (h n)) * (x (h q) - x (h n)) +
                     (y (h q) - y (h n)) * (y (h q) - y (h n))) = l).
  { unfold l, dx, dy. f_equal. ring. }
  assert (Hr : radius (h q) + radius (h n) = r) by (unfold r; ring).
  destruct (Rltb l r) eqn:Htest.
  - pose proof (separate_moves n q h Hne') as H1.
    pose proof (separate_moves q n h Hne) as H2.
    cbv zeta in H1, H2.
    cbn [num_add num_sub num_mul num_div num_sqrt num_lt num_half RNumber]
      in H1, H2.
    fold dx dy in H1. fold l in H1. fold r in H1.
    rewrite Hl, Hr in H2.
    destruct (H1 Htest) as [H1n H1q]. destruct (H2 Htest) as [H2q H2n].
    destruct (Nat.eq_dec p n) as [En | Hpn].
    + subst p. rewrite H1n, H2n. unfold dx, dy. f_equal; ring.
    + destruct (Nat.eq_dec p q) as [Eq | Hpq].
      * subst p. rewrite H1q, H2q. unfold dx, dy. f_equal; ring.
      * rewrite !separate_other by assumption. reflexivity.
  - unfold separate.
    cbn [num_add num_sub num_mul num_div num_sqrt num_lt num_half RNumber].
    fold dx dy. fold l. fold r. rewrite Hl, Hr, Htest. reflexivity.
Qed.

Lemma separate_symmetric_witness :
  separate 0%nat 1%nat overlappingPair 0%nat =
  separate 1%nat 0%nat overlappingPair 0%nat.
Proof.
  apply (separate_symmetric 0%nat 1%nat overlappingPair 0%nat).
  exact (O_S 0).
Defined.

(** X20.  Pruning is inherited by parts: a closure that returns [true] for
    a rectangle returns [true] for every rectangle inside it, on any quad
    and heap. *)
Theorem prune_inherited (c : Closure R) (quad quad' : Quad)
    (x1 y1 x2 y2 x1' y1' x2' y2' : R) (h h' : Heap R) :
  fst (invoke c quad x1 y1 x2 y2 h) = true ->
  x1 <= x1' -> x2' <= x2 -> y1 <= y1' -> y2' <= y2 ->
  fst (invoke c quad' x1' y1' x2' y2' h') = true.
Proof. rewrite !invoke_decision. intros H Hx1 Hx2 Hy1 Hy2. lra. Qed.

Lemma prune_inherited_witness :
  fst (invoke (collide 0%nat originPoint) (mkQuad None) 18 1 19 2
         originPoint) = true.
Proof.
  apply (prune_inherited (collide 0%nat originPoint) (mkQuad None)
           (mkQuad None) 17 0 20 3 18 1 19 2 originPoint originPoint);
    try lra.
  apply invoke_decision. cbn. lra.
Defined.

(** X21.  Pruning loses nothing for small circles: while [node] is where
    it was when [collide] ran, a node of radius at most [16] whose centre
    lies in a rectangle for which the closure returns [true] is farther
    from [node] than the sum of the radii, and the separation step would
    leave both where they are. *)
Theorem prune_is_safe (n q : Ref) (h0 h : Heap R) (quad : Quad)
    (x1 y1 x2 y2 : R) :
  h n = h0 n ->
  fst (invoke (collide n h0) quad x1 y1 x2 y2 h) = true ->
  in_rectangle x1 y1 x2 y2 (x (h q)) (y (h q)) ->
  radius (h q) <= 16 ->
  radius (h n) + radius (h q) < distance (h n) (h q) /\
  separate n q h = h.
Proof.
  intros Hsame Hprune [Hx Hy] Hrad.
  apply invoke_decision in Hprune. cbn in Hprune. rewrite <- Hsame in Hprune.
  set (dx := x (h n) - x (h q)) in *. set (dy := y (h n) - y (h q)) in *.
  assert (Hfar : radius (h n) + radius (h q) < distance (h n) (h q)).
  { unfold distance. fold dx dy.
    assert (Hdx : Rabs dx <= sqrt (dx * dx + dy * dy)).
    { rewrite <- sqrt_Rsqr_abs. apply sqrt_le_1_alt. unfold Rsqr. nra. }
    assert (Hdy : Rabs dy <= sqrt (dx * dx + dy * dy)).
    { rewrite <- sqrt_Rsqr_abs. apply sqrt_le_1_alt. unfold Rsqr. nra. }
    pose proof (Rle_abs dx). pose proof (Rle_abs (- dx)).
    pose proof (Rle_abs dy). pose proof (Rle_abs (- dy)).
    rewrite Rabs_Ropp in *. unfold dx, dy in *. lra. }
  split; [exact Hfar |].
  unfold separate.
  cbn [num_add num_sub num_mul num_div num_sqrt num_lt num_half RNumber].
  unfold distance in Hfar. fold dx dy in Hfar |- *.
  assert (Hno : Rltb (sqrt (dx * dx + dy * dy))
                  (radius (h n) + radius (h q)) = false).
  { unfold Rltb. destruct (Rlt_dec _ _); [lra | reflexivity]. }
  rewrite Hno. reflexivity.
Qed.

Lemma prune_is_safe_witness :
  radius (farPair 0%nat) + radius (farPair 1%nat) <
    distance (farPair 0%nat) (farPair 1%nat) /\
  separate 0%nat 1%nat farPair = farPair.
Proof.
  apply (prune_is_safe 0%nat 1%nat farPair farPair (mkQuad None)
           20 (-1) 40 1).
  - reflexivity.
  - apply invoke_decision. cbn. lra.
  - unfold in_rectangle. cbn. lra.
  - cbn. lra.
Defined.

End CollideRealMore.

Section MoreComposition.
Import Matrix2X3.
Local Open Scope R_scope.

(** X22.  A flip is a negative scale: the composed matrix only depends on
    the signed scales, so moving the signs of the flips into [scaleX] and
    [scaleY] gives the same matrix. *)
Theorem compose_flip_is_negative_scale (o : TRANSFORM_OPTION) :
  composeMatrix2X3 o =
  composeMatrix2X3
    {| angle := angle o;
       scaleX := if flipX o then - scaleX o else scaleX o;
       scaleY := if flipY o then - scaleY o else scaleY o;
       skewX := skewX o; skewY := skewY o;
       translateX := translateX o; translateY := translateY o;
       flipX := false; flipY := false |}.
Proof.
  rewrite !compose_product, !calcRotate_formula, !calcDimensions_formula.
  reflexivity.
Qed.

(** X23.  Rotating about a point is transforming by the matrix that moves
    the point to the origin, rotates, and moves back. *)
Theorem rotatePoint_is_transform (p origin : Point2D)
    (o : TRANSFORM_OPTION) :
  rotatePoint2D p origin (angle o) =
  transformPoint2D p
    (multiplyMatrix2X3
       (multiplyMatrix2X3 (Mat 1 0 0 1 (px origin) (py origin))
          (calcRotateMatrix2X3 o))
       (Mat 1 0 0 1 (- px origin) (- py origin)))
    false.
Proof.
  rewrite calcRotate_formula. destruct p as [x y], origin as [ox oy].
  unfold rotatePoint2D, rotateVector2D, Point2D_sub, Point2D_add. cbn.
  f_equal; ring.
Qed.

End MoreComposition.

(** * collide in binary64: nodes whose position is NaN *)

Section CollideNaN.
Import Collide.
Local Open Scope float_scope.

Lemma float_nan_sub (a : float) : nan - a = nan.
Proof.
  apply Prim2SF_inj. rewrite sub_spec. change (Prim2SF nan) with S754_nan.
  reflexivity.
Qed.

Lemma float_nan_add (a : float) : nan + a = nan.
Proof.
  apply Prim2SF_inj. rewrite add_spec. change (Prim2SF nan) with S754_nan.
  reflexivity.
Qed.

Lemma float_nan_ltb (a : float) : (nan <? a) = false /\ (a <? nan) = false.
Proof.
  rewrite !ltb_spec. change (Prim2SF nan) with S754_nan.
  split; [reflexivity |].
  destruct (Prim2SF a) as [s | s | | s m e]; reflexivity.
Qed.

(** The distance computed from a NaN coordinate is NaN and fails the test
    [l < r]. *)
Lemma nan_distance_test (dx dy r : float) :
  dx = nan \/ dy = nan ->
  (PrimFloat.sqrt (dx * dx + dy * dy) <? r) = false.
Proof.
  intros [E | E]; subst.
  - change (nan * nan) with nan. rewrite float_nan_add.
    change (PrimFloat.sqrt nan) with nan. apply float_nan_ltb.
  - change (nan * nan) with nan. rewrite float_add_nan.
    change (PrimFloat.sqrt nan) with nan. apply float_nan_ltb.
Qed.

(** X24.  In binary64 a node with a NaN coordinate is inert: the
    separation step moves nothing when it is [node] and nothing when it is
    [quad.point]; and when both its coordinates are NaN, the closure made
    for it returns [false] for every rectangle, so it prunes no region. *)
Theorem nan_node_is_inert (n : Ref) (h : Heap float) :
  x (h n) = nan \/ y (h n) = nan ->
  (forall q, separate n q h = h /\ separate q n h = h) /\
  (x (h n) = nan -> y (h n) = nan ->
   forall quad x1 y1 x2 y2 h',
     fst (invoke (collide n h) quad x1 y1 x2 y2 h') = false).
Proof.
  intros Hnan. split.
  - intros q. split; unfold separate;
      cbn [num_add num_sub num_mul num_div num_sqrt num_lt num_half
           FloatNumber];
      rewrite nan_distance_test; try reflexivity.
    + destruct Hnan as [E | E]; rewrite E, float_nan_sub; auto.
    + destruct Hnan as [E | E]; rewrite E, float_sub_nan; auto.
  - intros Ex Ey quad x1 y1 x2 y2 h'. unfold invoke, collide.
    cbn [fst nx1 nx2 ny1 ny2 num_add num_sub num_gt num_lt num_16
         FloatNumber].
    rewrite Ex, Ey, !float_nan_add, !float_nan_sub.
    rewrite !(proj1 (float_nan_ltb _)), !(proj2 (float_nan_ltb _)).
    reflexivity.
Qed.

(** After the call of C2's counterexample both circles are inert. *)
Lemma nan_node_is_inert_witness :
  let h' := snd (invoke (collide 0%nat CollideFloat.stackedAtOrigin)
                   (mkQuad (Some 1%nat)) 0 0 0 0
                   CollideFloat.stackedAtOrigin) in
  (separate 0%nat 1%nat h' = h' /\ separate 1%nat 0%nat h' = h') /\
  fst (invoke (collide 0%nat h') (mkQuad None) 0 0 1 1 h') = false.
Proof.
  intros h'.
  destruct (nan_node_is_inert 0%nat h') as [Hsep Hprune].
  - left. vm_compute. reflexivity.
  - split; [apply Hsep |]. apply Hprune; vm_compute; reflexivity.
Defined.

End CollideNaN.
